(** * fix-parser.py: the substitution engine of the one-shot patcher

    The script reads one text file, rewrites its content with three
    [re.sub] calls applied in order, and writes the result back.  This
    development embeds

    - the text as Python sees it (a sequence of Unicode code points),
    - the part of Python's [re] module the three calls exercise (pattern
      syntax, the backtracking matcher, [re.sub]'s left-to-right scan),
    - the script itself, as a computation over the file and the console,

    and settles the properties stated about them. *)

From Stdlib Require Import String Ascii NArith Arith Bool Lia List.
From Equations Require Import Equations.
Import ListNotations.

(** ** Text *)

(** A Python [str] is a sequence of code points. *)
Definition char := N.
Definition doc := list char.

Fixpoint of_string (s : string) : doc :=
  match s with
  | EmptyString => []
  | String a s' => N_of_ascii a :: of_string s'
  end.

Definition LF : char := 10%N.
Definition BACKSLASH : char := 92%N.

(** What [\s] matches in a [str] pattern: [Py_UNICODE_ISSPACE]. *)
Definition is_space (c : char) : bool :=
  ((9 <=? c) && (c <=? 13) || (28 <=? c) && (c <=? 32)
   || (c =? 133) || (c =? 160) || (c =? 5760)
   || (8192 <=? c) && (c <=? 8202)
   || (c =? 8232) || (c =? 8233) || (c =? 8239) || (c =? 8287)
   || (c =? 12288))%N.

Definition is_ascii_alnum (c : char) : bool :=
  ((48 <=? c) && (c <=? 57) || (65 <=? c) && (c <=? 90)
   || (97 <=? c) && (c <=? 122))%N.

(** Runs of whitespace, and the end of a text. *)
Definition all_space (w : doc) : bool := forallb is_space w.

Definition ends_in_space (s : doc) : bool :=
  match rev s with
  | c :: _ => is_space c
  | [] => false
  end.

(** Substrings. *)
Fixpoint starts_with (t s : doc) : bool :=
  match t, s with
  | [], _ => true
  | _ :: _, [] => false
  | x :: t', y :: s' => N.eqb x y && starts_with t' s'
  end.

Fixpoint occurs (t s : doc) : bool :=
  starts_with t s
  || match s with
     | [] => false
     | _ :: s' => occurs t s'
     end.

(** Lines: [str.strip] on one line, and lines joined by line feeds. *)
Fixpoint lstrip (s : doc) : doc :=
  match s with
  | c :: s' => if is_space c then lstrip s' else s
  | [] => []
  end.

Definition rstrip (s : doc) : doc := rev (lstrip (rev s)).

Definition strip (s : doc) : doc := rstrip (lstrip s).

Definition ends_with (t s : doc) : bool := starts_with (rev t) (rev s).

Fixpoint join_lines (ls : list doc) : doc :=
  match ls with
  | [] => []
  | [l] => l
  | l :: ls' => l ++ LF :: join_lines ls'
  end.

(** ** Results of calls that can raise *)

Inductive failure :=
| IOFailure        (* the file cannot be opened *)
| PatternFailure   (* re.error: the pattern is malformed *)
| OutsideModel     (* syntax of [re] this development does not cover *)
| EncodeFailure.   (* UnicodeEncodeError: stdout cannot encode the message *)

Inductive outcome (A : Type) :=
| Ok (a : A)
| Raise (e : failure).
Arguments Ok {A} a.
Arguments Raise {A} e.

(** ** Patterns *)

Module Re.

(** The fragment of the pattern language the script uses: literals, the
    class [\s], and the greedy repeat [+] of one of them, in sequence. *)
Inductive atom :=
| Lit (c : char)
| Space.

Inductive item :=
| One (a : atom)
| Plus (a : atom).

Definition regex := list item.

Definition accepts (a : atom) (c : char) : bool :=
  match a with
  | Lit x => N.eqb x c
  | Space => is_space c
  end.

(** *** Compilation of a pattern string *)

(** Characters with a meaning of their own in a pattern. *)
Definition is_special (c : char) : bool :=
  existsb (N.eqb c) (of_string ".^$*+?{[(|)").

Definition is_repeat (c : char) : bool :=
  existsb (N.eqb c) (of_string "*+?{").

(** Letters and digits that mean something after a backslash. *)
Definition is_known_escape (c : char) : bool :=
  existsb (N.eqb c) (of_string "AbBdDsSwWZzafnrtvxuUN0123456789").

(** One atom at the head of the pattern, and what follows it. *)
Definition parse_atom (s : doc) : outcome (atom * doc) :=
  match s with
  | [] => Raise OutsideModel
  | c :: s' =>
      if N.eqb c BACKSLASH then
        match s' with
        | [] => Raise PatternFailure              (* bad escape (end of pattern) *)
        | e :: s'' =>
            if N.eqb e 115 then Ok (Space, s'')        (* \s *)
            else if N.eqb e 110 then Ok (Lit LF, s'')  (* \n *)
            else if is_known_escape e then Raise OutsideModel
            else if is_ascii_alnum e then Raise PatternFailure  (* bad escape *)
            else Ok (Lit e, s'')                       (* \} and the like *)
        end
      else if N.eqb c 42 || N.eqb c 43 || N.eqb c 63 then
        Raise PatternFailure                      (* nothing to repeat *)
      else if N.eqb c 41 then
        Raise PatternFailure                      (* unbalanced parenthesis *)
      else if N.eqb c 40 then
        if existsb (N.eqb 41) s' then Raise OutsideModel
        else Raise PatternFailure                 (* missing ) *)
      else if N.eqb c 91 then
        if existsb (N.eqb 93) s' then Raise OutsideModel
        else Raise PatternFailure                 (* unterminated character set *)
      else if is_special c then Raise OutsideModel
      else Ok (Lit c, s')
  end.

Fixpoint parse (fuel : nat) (s : doc) : outcome regex :=
  match s with
  | [] => Ok []
  | _ :: _ =>
      match fuel with
      | O => Raise OutsideModel
      | S fuel' =>
          match parse_atom s with
          | Raise e => Raise e
          | Ok (a, rest) =>
              match rest with
              | q :: rest' =>
                  if N.eqb q 43 then
                    match rest' with
                    | q' :: _ =>
                        if N.eqb q' 42 then Raise PatternFailure  (* multiple repeat *)
                        else if is_repeat q' then Raise OutsideModel
                        else
                          match parse fuel' rest' with
                          | Ok r => Ok (Plus a :: r)
                          | Raise e => Raise e
                          end
                    | [] => Ok [Plus a]
                    end
                  else if (N.eqb q 42 || N.eqb q 63) && starts_with [42%N] rest'
                  then Raise PatternFailure               (* multiple repeat *)
                  else if is_repeat q then Raise OutsideModel
                  else
                    match parse fuel' rest with
                    | Ok r => Ok (One a :: r)
                    | Raise e => Raise e
                    end
              | [] => Ok [One a]
              end
          end
      end
  end.

(** [re.compile] on a raw pattern string.  Every atom consumes at least
    one character, so the length of the pattern is fuel enough. *)
Definition compile (pattern : string) : outcome regex :=
  let s := of_string pattern in parse (length s) s.

(** *** Matching at a position *)

(** [a+] followed by the rest of the pattern [k]: take as many characters
    as possible, give them back one at a time while [k] fails.  The result
    is the number of characters consumed. *)
Fixpoint plus_greedy (a : atom) (k : doc -> option nat) (s : doc) : option nat :=
  match s with
  | [] => None
  | c :: s' =>
      if accepts a c then
        match plus_greedy a k s' with
        | Some n => Some (S n)
        | None => option_map S (k s')
        end
      else None
  end.

(** The length of the match of [p] that starts at the head of [s]. *)
Fixpoint match_here (p : regex) (s : doc) : option nat :=
  match p with
  | [] => Some 0
  | One a :: p' =>
      match s with
      | c :: s' => if accepts a c then option_map S (match_here p' s') else None
      | [] => None
      end
  | Plus a :: p' => plus_greedy a (match_here p') s
  end.

(** A text on which [a+] cannot go on: it is empty or starts with a
    character outside [a]. *)
Definition stops (a : atom) (s : doc) : Prop :=
  match s with
  | [] => True
  | c :: _ => accepts a c = false
  end.

(** Does [p] match anywhere in [s]? *)
Fixpoint has_match (p : regex) (s : doc) : bool :=
  match match_here p s with
  | Some _ => true
  | None => match s with [] => false | _ :: s' => has_match p s' end
  end.

(** The texts a pattern denotes: what a match of it can consume. *)
Fixpoint in_lang (p : regex) (m : doc) : Prop :=
  match p with
  | [] => m = []
  | One a :: p' =>
      exists c m', m = c :: m' /\ accepts a c = true /\ in_lang p' m'
  | Plus a :: p' =>
      exists w m', m = w ++ m' /\ w <> [] /\
                   forallb (accepts a) w = true /\ in_lang p' m'
  end.

(** *** Substitution *)

(** [re.sub] with a literal replacement: scan left to right; where the
    pattern matches, emit the replacement and resume right after the
    match; elsewhere copy one character.  An empty match emits the
    replacement and then copies the character it stands before. *)
Equations? sub (p : regex) (repl : doc) (s : doc) : doc by wf (length s) lt :=
  sub p repl [] with match_here p [] => {
    | Some _ := repl;
    | None := [] };
  sub p repl (c :: s') with match_here p (c :: s') => {
    | Some (S n) := repl ++ sub p repl (skipn n s');
    | Some O := repl ++ c :: sub p repl s';
    | None := c :: sub p repl s' }.
Proof.
  all: simpl; try lia.
  rewrite length_skipn. lia.
Qed.

(** [re.sub(pattern, repl, string)]: the pattern is compiled at the call;
    a replacement holding a backslash is a template, which is not covered. *)
Definition re_sub (pattern : string) (repl : doc) (s : doc) : outcome doc :=
  match compile pattern with
  | Raise e => Raise e
  | Ok p =>
      if existsb (N.eqb BACKSLASH) repl then Raise OutsideModel
      else Ok (sub p repl s)
  end.

End Re.

Import Re.

(** ** The script *)

Module Script.

(** What a run does to the world around it. *)
Inductive event :=
| EvOpenFailed
| EvRead
| EvWrite (d : doc)
| EvPrint (msg : doc).

(** The world the script runs in: the text of the file at [file_path], as
    [f.read()] returns it ([None] when the file cannot be opened for
    reading), whether the file can be opened for writing, what the run
    has done so far, and the characters the encoding of the standard
    output can encode. *)
Record world := MkWorld {
  file : option doc;
  writable : bool;
  events : list event;
  stdout_encodes : char -> bool
}.

(** A world whose standard output encodes every character. *)
Definition World (f : option doc) (wr : bool) (evs : list event) : world :=
  MkWorld f wr evs (fun _ => true).

Definition emit (e : event) (w : world) : world :=
  MkWorld (file w) (writable w) (events w ++ [e]) (stdout_encodes w).

(** Computations that may read and change the world, or raise. *)
Definition M (A : Type) := world -> outcome A * world.

Definition ret {A} (a : A) : M A := fun w => (Ok a, w).

Definition bind {A B} (m : M A) (k : A -> M B) : M B :=
  fun w =>
    match m w with
    | (Ok a, w') => k a w'
    | (Raise e, w') => (Raise e, w')
    end.

Notation "x <- m ;; k" := (bind m (fun x => k))
  (at level 61, m at next level, right associativity).
Notation "m ;;; k" := (bind m (fun _ => k))
  (at level 61, right associativity).

(** A library call that touches nothing but its arguments. *)
Definition call {A} (o : outcome A) : M A := fun w => (o, w).

Definition file_path : string := "s:\SED\packages\core\src\semantic\parser.ts".

(** [with open(file_path, 'r') as f: content = f.read()] *)
Definition read_text : M doc :=
  fun w =>
    match file w with
    | Some d => (Ok d, emit EvRead w)
    | None => (Raise IOFailure, emit EvOpenFailed w)
    end.

(** [with open(file_path, 'w') as f: f.write(content)] *)
Definition write_text (content : doc) : M unit :=
  fun w =>
    if writable w then
      (Ok tt, MkWorld (Some content) true (events w ++ [EvWrite content])
                (stdout_encodes w))
    else (Raise IOFailure, emit EvOpenFailed w).

(** [print(msg)]: the text is encoded for the standard output as a whole;
    a character the encoding lacks raises before anything is printed. *)
Definition print (msg : doc) : M unit :=
  fun w =>
    if forallb (stdout_encodes w) msg then (Ok tt, emit (EvPrint msg) w)
    else (Raise EncodeFailure, w).

Record rule := Rule { pattern : string; repl : doc }.

Definition message : doc :=
  10003%N :: of_string " Removed parseTime references from parse() method".

(** The script over its three (pattern, replacement) pairs. *)
Definition script (r1 r2 r3 : rule) : M unit :=
  content <- read_text ;;
  content <- call (re_sub (pattern r1) (repl r1) content) ;;
  content <- call (re_sub (pattern r2) (repl r2) content) ;;
  content <- call (re_sub (pattern r3) (repl r3) content) ;;
  write_text content ;;;
  print message.

(** What the script needs of [re.sub], for any pattern and replacement
    Python accepts or rejects: the rewritten text, or [None] for
    [re.error]. *)
Definition re_sub_impl := string -> doc -> doc -> option doc.

Definition call_re (lib : re_sub_impl) (r : rule) (content : doc) : M doc :=
  call (match lib (pattern r) (repl r) content with
        | Some d => Ok d
        | None => Raise PatternFailure
        end).

(** The script over any such [re.sub]. *)
Definition script_using (lib : re_sub_impl) (r1 r2 r3 : rule) : M unit :=
  content <- read_text ;;
  content <- call_re lib r1 content ;;
  content <- call_re lib r2 content ;;
  content <- call_re lib r3 content ;;
  write_text content ;;;
  print message.

(** [re_sub] of this development as such a library; it stands for
    Python's on the patterns and replacements it covers. *)
Definition modelled_re_sub : re_sub_impl :=
  fun p r s =>
    match re_sub p r s with
    | Ok d => Some d
    | Raise _ => None
    end.

(** A pattern the library rejects, whatever the replacement and the text. *)
Definition rejects (lib : re_sub_impl) (p : string) : Prop :=
  forall r s, lib p r s = None.

(** The three pairs of the source, in order. *)
Definition fix1 : rule := Rule "\s+parseTime,\n" [LF].
Definition fix2 : rule := Rule "\s+parseTime,\n" [LF].
Definition fix3 : rule :=
  Rule "\s+language:\s+resolvedLanguage,\n\s+\}," (LF :: of_string "        },").

Definition rule_set : list rule := [fix1; fix2; fix3].

Definition main : M unit := script fix1 fix2 fix3.

(** The three substitutions alone, on a text in hand. *)
Definition apply_rule (r : rule) (d : doc) : outcome doc :=
  re_sub (pattern r) (repl r) d.

(** *** The compiled patterns *)

Definition lits (t : doc) : regex := map (fun c => One (Lit c)) t.

Definition parseTime_tok : doc := of_string "parseTime,".
Definition language_tok : doc := of_string "language:".
Definition resolved_tok : doc := of_string "resolvedLanguage,".
Definition close_tok : doc := of_string "},".

Definition parseTime_re : regex :=
  Plus Space :: lits parseTime_tok ++ [One (Lit LF)].

Definition language_re : regex :=
  Plus Space :: lits language_tok ++ Plus Space :: lits resolved_tok
    ++ One (Lit LF) :: Plus Space :: lits close_tok.

(** Each rule as a function on texts, and their composition. *)
Definition rule1 (d : doc) : doc := sub parseTime_re (repl fix1) d.
Definition rule2 (d : doc) : doc := sub parseTime_re (repl fix2) d.
Definition rule3 (d : doc) : doc := sub language_re (repl fix3) d.

Definition engine (d : doc) : doc := rule3 (rule2 (rule1 d)).

End Script.

Import Script.

(** ** Texts and predicates the properties speak of *)

(** The end-to-end scenario: its input, the output it is said to have,
    and the output the script has. *)
Definition scenario_input : doc :=
  of_string "return {" ++ LF ::
  of_string "        result," ++ LF ::
  of_string "        parseTime," ++ LF ::
  of_string "        language: resolvedLanguage," ++ LF ::
  of_string "    };" ++ [LF].

Definition scenario_expected : doc :=
  of_string "return {" ++ LF ::
  of_string "        result," ++ LF ::
  of_string "    };" ++ [LF].

Definition scenario_output : doc :=
  of_string "return {" ++ LF ::
  of_string "        result," ++ LF ::
  of_string "        language: resolvedLanguage," ++ LF ::
  of_string "    };" ++ [LF].

(** The key-value block with two-space indentation. *)
Definition language_block : doc :=
  of_string "  language: resolvedLanguage," ++ LF :: of_string "  },".

Definition language_block_expected : doc := LF :: of_string "  },".

(** [language:\s+resolvedLanguage,], the key-value line as rule 3 reads it. *)
Definition key_value_re : regex :=
  lits language_tok ++ Plus Space :: lits resolved_tok.

(** Does the pattern of the rule match somewhere in the text? *)
Definition rule_matches (r : rule) (d : doc) : bool :=
  match compile (pattern r) with
  | Ok p => has_match p d
  | Raise _ => false
  end.

(** A rule whose pattern the compiler of this development rejects, as
    Python does: a repeat with nothing before it or right after another,
    a bad escape, an unbalanced or unclosed parenthesis, an unclosed
    character set.  What is malformed inside syntax this development
    does not cover is not told apart here; [rejects] above is the notion
    for any pattern.  [in_model]: a rule this development covers. *)
Definition malformed (r : rule) : bool :=
  match compile (pattern r) with
  | Raise PatternFailure => true
  | _ => false
  end.

Definition in_model (r : rule) : bool :=
  match compile (pattern r) with
  | Ok _ => negb (existsb (N.eqb BACKSLASH) (repl r))
  | Raise PatternFailure => true
  | Raise _ => false
  end.

(** Events that touch the file. *)
Definition touches_file (e : event) : bool :=
  match e with
  | EvPrint _ => false
  | _ => true
  end.

Definition file_accesses (w : world) : list event :=
  filter touches_file (events w).

(** A run that halts on a pattern error before it has touched the file. *)
Definition halts_before_file_access (r1 r2 r3 : rule) (w : world) : Prop :=
  fst (script r1 r2 r3 w) = Raise PatternFailure /\
  file_accesses (snd (script r1 r2 r3 w)) = file_accesses w.

(** Rule 1 removes one line and leaves the lines around it as they are. *)
Definition line_removed (before : list doc) (line : doc) (after : list doc)
  : Prop :=
  rule1 (join_lines (before ++ line :: after)) = join_lines (before ++ after).

(** A whitespace character other than the line feed. *)
Definition indent_char (c : char) : bool := is_space c && negb (N.eqb c LF).

(** Every [parseTime,] of the text stands right after a whitespace
    character other than a line feed and right before a line feed;
    [prev] is the character before the text, if any. *)
Fixpoint tokens_indented_from (prev : option char) (s : doc) : bool :=
  match s with
  | [] => true
  | c :: s' =>
      (if starts_with parseTime_tok s then
         match prev with
         | Some b => indent_char b
         | None => false
         end
         && starts_with (parseTime_tok ++ [LF]) s
       else true)
      && tokens_indented_from (Some c) s'
  end.

Definition tokens_indented (d : doc) : bool := tokens_indented_from None d.

(** Sample texts. *)
Definition lines_before : list doc := [of_string "a"; []].
Definition token_line : doc := of_string "  parseTime,".
Definition lines_after : list doc := [of_string "b"].

Definition adjacent_tokens : doc :=
  of_string " parseTime," ++ LF :: of_string "parseTime," ++ [LF].

Definition two_token_lines : doc :=
  of_string "a," ++ LF :: of_string "  parseTime," ++ LF ::
  of_string "b," ++ LF :: of_string "  parseTime," ++ LF :: of_string "c".

Definition wide_key_value : doc :=
  of_string " language:  resolvedLanguage," ++ LF :: of_string " },".

Definition plain_text : doc :=
  of_string "language: string; parseTime: number,".

(** Rules with a malformed pattern: a repeat with nothing before it, and
    a backslash with nothing after it. *)
Definition bad_first : rule := Rule "+parseTime,\n" [LF].
Definition bad_last : rule := Rule "\s+language:\" [LF].

(** ** Notions for the further properties *)

(** One text inside another: its characters in order, not necessarily
    side by side. *)
Inductive subseq : doc -> doc -> Prop :=
| subseq_nil : subseq [] []
| subseq_skip (c : char) (a b : doc) : subseq a b -> subseq a (c :: b)
| subseq_keep (c : char) (a b : doc) : subseq a b -> subseq (c :: a) (c :: b).

(** The characters of a text that are not whitespace. *)
Definition visible (d : doc) : doc := filter (fun c => negb (is_space c)) d.

(** The number of line feeds of a text. *)
Definition line_feeds (d : doc) : nat := length (filter (N.eqb LF) d).

Definition has_line_feed (d : doc) : bool := existsb (N.eqb LF) d.

(** A non-empty whitespace run. *)
Definition space_run (w : doc) : bool :=
  match w with
  | [] => false
  | _ :: _ => all_space w
  end.

(** A text with neither [parseTime,] nor [language:] in it. *)
Definition plain (s : doc) : bool :=
  negb (occurs parseTime_tok s) && negb (occurs language_tok s).

(** The shape the three calls are written for: a [parseTime,] line in one
    object; further down a [parseTime,] line, then the
    [language: resolvedLanguage,] line and the closing brace and comma of
    another.  [w1] to [w5] are the whitespace runs in between. *)
Definition target_shape (a w1 b w2 w3 w4 w5 c : doc) : doc :=
  a ++ w1 ++ parseTime_tok ++ LF ::
  b ++ w2 ++ parseTime_tok ++ LF ::
  w3 ++ language_tok ++ w4 ++ resolved_tok ++ LF :: w5 ++ close_tok ++ c.

(** A run in which one of the two [open] calls fails. *)
Definition open_fails (w : world) : bool :=
  match file w with
  | None => true
  | Some _ => negb (writable w)
  end.

Definition printed (w : world) : list event :=
  filter (fun e => negb (touches_file e)) (events w).

(** Sample texts for the further properties. *)
Definition sample_head : doc := of_string "  return {" ++ LF :: of_string "    result,".
Definition sample_middle : doc :=
  of_string "    metadata: {" ++ LF :: of_string "      nodeCount,".
Definition sample_rest : doc := LF :: of_string "  };".
Definition sample_target : doc :=
  target_shape sample_head (LF :: of_string "    ") sample_middle
    (LF :: of_string "      ") (of_string "      ") (of_string " ")
    (of_string "    ") sample_rest.
Definition one_line : doc := of_string "  parseTime, language: resolvedLanguage, },".

(** A standard output with a one-byte encoding, as a console may have. *)
Definition narrow_stdout (c : char) : bool := (c <? 256)%N.
Definition narrow_world : world :=
  MkWorld (Some scenario_input) true [] narrow_stdout.

(** * Properties *)

(** ** The patterns of the source compile to the expressions above *)

Lemma compile_fix1 : compile (pattern fix1) = Ok parseTime_re.
Proof. reflexivity. Qed.

Lemma compile_fix2 : compile (pattern fix2) = Ok parseTime_re.
Proof. reflexivity. Qed.

Lemma compile_fix3 : compile (pattern fix3) = Ok language_re.
Proof. reflexivity. Qed.

Lemma compile_key_value :
  compile "language:\s+resolvedLanguage," = Ok key_value_re.
Proof. reflexivity. Qed.

(** ** Substrings *)

Lemma starts_with_app (t r : doc) : starts_with t (t ++ r) = true.
Proof.
  induction t as [|x t IH]; simpl; [reflexivity|].
  now rewrite N.eqb_refl.
Qed.

Lemma starts_with_inv (t s : doc) :
  starts_with t s = true -> exists r, s = t ++ r.
Proof.
  revert s; induction t as [|x t IH]; intros s H.
  - now exists s.
  - destruct s as [|y s]; simpl in H; [discriminate|].
    apply andb_true_iff in H as [Hxy Ht].
    apply N.eqb_eq in Hxy as ->.
    destruct (IH _ Ht) as [r ->]. now exists r.
Qed.

Lemma occurs_app (a t b : doc) : occurs t (a ++ t ++ b) = true.
Proof.
  induction a as [|x a IH]; simpl.
  - destruct (t ++ b) eqn:E; simpl; rewrite <- E, starts_with_app; reflexivity.
  - rewrite IH. apply orb_true_r.
Qed.

Lemma occurs_inv (t s : doc) :
  occurs t s = true -> exists a b, s = a ++ t ++ b.
Proof.
  induction s as [|y s IH]; simpl; intros H.
  - rewrite orb_false_r in H. apply starts_with_inv in H as [r ->].
    now exists [], r.
  - apply orb_true_iff in H as [H|H].
    + apply starts_with_inv in H as [r ->]. now exists [], r.
    + destruct (IH H) as (a & b & ->). now exists (y :: a), b.
Qed.

(** ** The matcher against the language of a pattern *)

Section Greedy.
Variable a : atom.
Variable k : doc -> option nat.

(** What [k] is correct for. *)
Variable L : doc -> Prop.
Hypothesis k_sound :
  forall s n, k s = Some n -> exists m r, s = m ++ r /\ length m = n /\ L m.

Lemma plus_greedy_sound (s : doc) (n : nat) :
  plus_greedy a k s = Some n ->
  exists w m r, s = w ++ m ++ r /\ w <> [] /\
                forallb (accepts a) w = true /\ L m /\
                n = length w + length m.
Proof.
  revert n; induction s as [|c s IH]; simpl; intros n H; [discriminate|].
  destruct (accepts a c) eqn:Hc; [|discriminate].
  destruct (plus_greedy a k s) as [n'|] eqn:Hg.
  - injection H as <-.
    destruct (IH _ eq_refl) as (w & m & r & -> & _ & Hw & Hm & ->).
    exists (c :: w), m, r. simpl. rewrite Hc, Hw.
    repeat split; auto; discriminate.
  - destruct (k s) as [n'|] eqn:Hk; simpl in H; [|discriminate].
    injection H as <-.
    destruct (k_sound _ _ Hk) as (m & r & -> & <- & Hm).
    exists [c], m, r. simpl. rewrite Hc.
    repeat split; auto; discriminate.
Qed.

Lemma plus_greedy_complete (w s : doc) :
  w <> [] -> forallb (accepts a) w = true ->
  k s <> None -> plus_greedy a k (w ++ s) <> None.
Proof.
  intros Hne Hw Hk.
  induction w as [|c w IH]; [congruence|].
  simpl in *. apply andb_true_iff in Hw as [Hc Hw]. rewrite Hc.
  destruct w as [|c' w].
  - simpl. destruct (plus_greedy a k s); [discriminate|].
    destruct (k s); [discriminate|congruence].
  - destruct (plus_greedy a k ((c' :: w) ++ s)) eqn:E; [discriminate|].
    exfalso. apply IH; auto; discriminate.
Qed.

(** When [k] cannot start on a character of the class, the repeat takes
    the whole run and never gives a character back. *)
Hypothesis k_rejects :
  forall c s, accepts a c = true -> k (c :: s) = None.

Lemma plus_greedy_stops (s : doc) : stops a s -> plus_greedy a k s = None.
Proof.
  destruct s as [|c s]; simpl; [reflexivity|]. now intros ->.
Qed.

Lemma plus_greedy_run (w s : doc) :
  w <> [] -> forallb (accepts a) w = true -> stops a s ->
  plus_greedy a k (w ++ s) = option_map (Nat.add (length w)) (k s).
Proof.
  intros Hne Hw Hs.
  induction w as [|c w IH]; [congruence|].
  simpl in *. apply andb_true_iff in Hw as [Hc Hw]. rewrite Hc.
  destruct w as [|c' w].
  - simpl. rewrite (plus_greedy_stops _ Hs). now destruct (k s).
  - rewrite IH by (auto; discriminate).
    destruct (k s) eqn:Hk; simpl; [reflexivity|].
    simpl in Hw. apply andb_true_iff in Hw as [Hc' _].
    now rewrite k_rejects.
Qed.
End Greedy.

Lemma match_here_sound (p : regex) (s : doc) (n : nat) :
  match_here p s = Some n ->
  exists m r, s = m ++ r /\ length m = n /\ in_lang p m.
Proof.
  revert s n; induction p as [|[a|a] p IH]; intros s n H; simpl in H.
  - injection H as <-. now exists [], s.
  - destruct s as [|c s]; [discriminate|].
    destruct (accepts a c) eqn:Hc; [|discriminate].
    destruct (match_here p s) as [n'|] eqn:Hm; simpl in H; [|discriminate].
    injection H as <-.
    destruct (IH _ _ Hm) as (m & r & -> & <- & Hl).
    exists (c :: m), r. repeat split. simpl. now exists c, m.
  - destruct (plus_greedy_sound a (match_here p) (in_lang p) IH s n H)
      as (w & m & r & -> & Hne & Hw & Hm & ->).
    exists (w ++ m), r. rewrite <- app_assoc, length_app.
    repeat split. simpl. now exists w, m.
Qed.

Lemma match_here_complete (p : regex) (m r : doc) :
  in_lang p m -> match_here p (m ++ r) <> None.
Proof.
  revert m; induction p as [|[a|a] p IH]; intros m H; simpl in *.
  - discriminate.
  - destruct H as (c & m' & -> & Hc & Hm). simpl. rewrite Hc.
    specialize (IH _ Hm). now destruct (match_here p (m' ++ r)).
  - destruct H as (w & m' & -> & Hne & Hw & Hm).
    rewrite <- app_assoc. apply plus_greedy_complete; auto.
Qed.

Lemma match_here_le (p : regex) (s : doc) (n : nat) :
  match_here p s = Some n -> n <= length s.
Proof.
  intros H. destruct (match_here_sound _ _ _ H) as (m & r & -> & <- & _).
  rewrite length_app. lia.
Qed.

(** Every text of the language is at least as long as the pattern. *)
Lemma in_lang_length (p : regex) (m : doc) :
  in_lang p m -> length p <= length m.
Proof.
  revert m; induction p as [|[a|a] p IH]; intros m H; simpl in *.
  - lia.
  - destruct H as (c & m' & -> & _ & Hm). simpl. specialize (IH _ Hm). lia.
  - destruct H as (w & m' & -> & Hne & _ & Hm).
    rewrite length_app. specialize (IH _ Hm).
    destruct w; [congruence|simpl; lia].
Qed.

Lemma match_here_min (p : regex) (s : doc) (n : nat) :
  match_here p s = Some n -> length p <= n.
Proof.
  intros H. destruct (match_here_sound _ _ _ H) as (m & r & -> & <- & Hm).
  now apply in_lang_length.
Qed.

(** ** The scan of [re.sub] *)

Lemma sub_nil (p : regex) (r : doc) :
  sub p r [] = match match_here p [] with Some _ => r | None => [] end.
Proof. simp sub. now destruct (match_here p []). Qed.

Lemma sub_cons (p : regex) (r : doc) (c : char) (s : doc) :
  sub p r (c :: s) =
  match match_here p (c :: s) with
  | Some (S n) => r ++ sub p r (skipn n s)
  | Some O => r ++ c :: sub p r s
  | None => c :: sub p r s
  end.
Proof.
  simp sub. destruct (match_here p (c :: s)) as [[|n]|]; reflexivity.
Qed.

(** Induction on the length of the text. *)
Lemma doc_length_ind (P : doc -> Prop) :
  (forall s, (forall t, length t < length s -> P t) -> P s) ->
  forall s, P s.
Proof.
  intros H s. remember (length s) as n eqn:E. revert s E.
  induction n as [n IH] using lt_wf_ind. intros s ->.
  apply H. intros t Ht. now apply (IH (length t)).
Qed.

(** A pattern that matches nowhere leaves the text as it is. *)
Lemma sub_no_match (p : regex) (r s : doc) :
  has_match p s = false -> sub p r s = s.
Proof.
  induction s as [|c s IH]; intros H.
  - rewrite sub_nil. simpl in H. now destruct (match_here p []).
  - rewrite sub_cons. simpl in H.
    destruct (match_here p (c :: s)); [discriminate|].
    now rewrite IH.
Qed.

Lemma has_match_suffix (p : regex) (a b : doc) :
  has_match p (a ++ b) = false -> match_here p b = None.
Proof.
  induction a as [|c a IH]; simpl; intros H.
  - destruct b; simpl in H; now destruct (match_here p _).
  - destruct (match_here p (c :: a ++ b)); [discriminate|]. auto.
Qed.

Lemma has_match_at (p : regex) (a b : doc) :
  match_here p b <> None -> has_match p (a ++ b) = true.
Proof.
  intros H. destruct (has_match p (a ++ b)) eqn:E; [reflexivity|].
  now apply has_match_suffix in E.
Qed.

(** A match at the head is replaced, and the scan resumes after it. *)
Lemma sub_at_match (p : regex) (r m post : doc) :
  m <> [] -> match_here p (m ++ post) = Some (length m) ->
  sub p r (m ++ post) = r ++ sub p r post.
Proof.
  intros Hm H. destruct m as [|c m]; [congruence|].
  simpl in *. rewrite sub_cons, H.
  now rewrite skipn_app, skipn_all, Nat.sub_diag.
Qed.

(** A replacement no longer than any match never lengthens the text. *)
Lemma sub_length (p : regex) (r s : doc) :
  length r <= length p -> length (sub p r s) <= length s.
Proof.
  intros Hr. induction s as [s IH] using doc_length_ind.
  destruct s as [|c s].
  - rewrite sub_nil. destruct (match_here p []) as [n|] eqn:E; [|simpl; lia].
    apply match_here_min in E as E1. apply match_here_le in E. simpl in E. lia.
  - rewrite sub_cons.
    destruct (match_here p (c :: s)) as [[|n]|] eqn:E.
    + apply match_here_min in E. assert (r = []) as -> by (destruct r; simpl in *; [reflexivity|lia]).
      simpl. specialize (IH s). simpl in IH. lia.
    + apply match_here_min in E as E1. apply match_here_le in E. simpl in E.
      rewrite length_app.
      assert (length (sub p r (skipn n s)) <= length (skipn n s)) as H1.
      { apply IH. rewrite length_skipn. simpl. lia. }
      rewrite length_skipn in H1. simpl. lia.
    + simpl. specialize (IH s). simpl in IH. lia.
Qed.

(** ** The three rules *)

Lemma apply_fix1 (d : doc) : apply_rule fix1 d = Ok (rule1 d).
Proof. reflexivity. Qed.

Lemma apply_fix2 (d : doc) : apply_rule fix2 d = Ok (rule2 d).
Proof. reflexivity. Qed.

Lemma apply_fix3 (d : doc) : apply_rule fix3 d = Ok (rule3 d).
Proof. reflexivity. Qed.

Lemma rule2_is_rule1 (d : doc) : rule2 d = rule1 d.
Proof. reflexivity. Qed.

Lemma rule1_no_match (d : doc) :
  has_match parseTime_re d = false -> rule1 d = d.
Proof. apply sub_no_match. Qed.

Lemma rule3_no_match (d : doc) :
  has_match language_re d = false -> rule3 d = d.
Proof. apply sub_no_match. Qed.

(** A match of either pattern is longer than the replacement for it. *)
Lemma parseTime_match_length (s : doc) (n : nat) :
  match_here parseTime_re s = Some n -> 12 <= n.
Proof. apply match_here_min. Qed.

Lemma language_match_length (s : doc) (n : nat) :
  match_here language_re s = Some n -> 32 <= n.
Proof. apply match_here_min. Qed.

Lemma rule1_length (d : doc) : length (rule1 d) <= length d.
Proof. apply sub_length. simpl. lia. Qed.

Lemma rule3_length (d : doc) : length (rule3 d) <= length d.
Proof. apply sub_length. simpl. lia. Qed.

(** ** What the two patterns match *)

Lemma in_lang_lits (t : doc) (p : regex) (m : doc) :
  in_lang (lits t ++ p) m <-> exists m', m = t ++ m' /\ in_lang p m'.
Proof.
  revert m; induction t as [|x t IH]; intros m; simpl.
  - split; [intros H; now exists m | intros (m' & -> & H); exact H].
  - split.
    + intros (c & m0 & -> & Hc & H). apply N.eqb_eq in Hc as <-.
      apply IH in H as (m' & -> & H). now exists m'.
    + intros (m' & -> & H). exists x, (t ++ m').
      rewrite N.eqb_refl. repeat split. apply IH. now exists m'.
Qed.

Lemma in_lang_parseTime (m : doc) :
  in_lang parseTime_re m <->
  exists w, w <> [] /\ all_space w = true /\ m = w ++ parseTime_tok ++ [LF].
Proof.
  unfold parseTime_re. cbn [in_lang]. split.
  - intros (w & m' & -> & Hne & Hw & H).
    apply in_lang_lits in H as (m'' & -> & H).
    destruct H as (c & e & -> & Hc & ->). apply N.eqb_eq in Hc as <-.
    now exists w.
  - intros (w & Hne & Hw & ->). exists w, (parseTime_tok ++ [LF]).
    repeat split; auto. apply in_lang_lits. exists [LF]. split; [reflexivity|].
    exists LF, []. repeat split.
Qed.

Lemma in_lang_key_value (m : doc) :
  in_lang key_value_re m <->
  exists w, w <> [] /\ all_space w = true /\
            m = language_tok ++ w ++ resolved_tok.
Proof.
  unfold key_value_re. rewrite in_lang_lits. cbn [in_lang]. split.
  - intros (m' & -> & w & m'' & -> & Hne & Hw & H).
    rewrite <- (app_nil_r (lits resolved_tok)) in H.
    apply in_lang_lits in H as (e & -> & ->). rewrite app_nil_r.
    now exists w.
  - intros (w & Hne & Hw & ->). exists (w ++ resolved_tok).
    split; [reflexivity|]. exists w, resolved_tok. repeat split; auto.
    rewrite <- (app_nil_r (lits resolved_tok)). apply in_lang_lits.
    exists []. now rewrite app_nil_r.
Qed.

Lemma in_lang_language (m : doc) :
  in_lang language_re m <->
  exists w1 w2 w3,
    (w1 <> [] /\ all_space w1 = true) /\
    (w2 <> [] /\ all_space w2 = true) /\
    (w3 <> [] /\ all_space w3 = true) /\
    m = w1 ++ language_tok ++ w2 ++ resolved_tok ++ LF :: w3 ++ close_tok.
Proof.
  unfold language_re. cbn [in_lang]. split.
  - intros (w1 & m1 & -> & Hne1 & Hw1 & H).
    apply in_lang_lits in H as (m2 & -> & H). cbn [in_lang] in H.
    destruct H as (w2 & m3 & -> & Hne2 & Hw2 & H).
    apply in_lang_lits in H as (m4 & -> & H). cbn [in_lang] in H.
    destruct H as (c & m5 & -> & Hc & w3 & m6 & -> & Hne3 & Hw3 & H).
    apply N.eqb_eq in Hc as <-.
    rewrite <- (app_nil_r (lits close_tok)) in H.
    apply in_lang_lits in H as (e & -> & ->). rewrite app_nil_r.
    now exists w1, w2, w3.
  - intros (w1 & w2 & w3 & [Hne1 Hw1] & [Hne2 Hw2] & [Hne3 Hw3] & ->).
    exists w1, (language_tok ++ w2 ++ resolved_tok ++ LF :: w3 ++ close_tok).
    repeat split; auto. apply in_lang_lits.
    exists (w2 ++ resolved_tok ++ LF :: w3 ++ close_tok).
    split; [reflexivity|]. cbn [in_lang].
    exists w2, (resolved_tok ++ LF :: w3 ++ close_tok).
    repeat split; auto. apply in_lang_lits.
    exists (LF :: w3 ++ close_tok). split; [reflexivity|]. cbn [in_lang].
    exists LF, (w3 ++ close_tok). repeat split.
    exists w3, close_tok. repeat split; auto.
    rewrite <- (app_nil_r (lits close_tok)). apply in_lang_lits.
    exists []. now rewrite app_nil_r.
Qed.

(** Literals are matched character by character. *)
Lemma match_lits (t : doc) (p : regex) (s : doc) :
  match_here (lits t ++ p) (t ++ s) =
  option_map (Nat.add (length t)) (match_here p s).
Proof.
  induction t as [|x t IH]; simpl.
  - now destruct (match_here p s).
  - rewrite N.eqb_refl, IH. now destruct (match_here p s).
Qed.

(** A literal that is not whitespace cannot start on whitespace. *)
Lemma lits_reject_space (x : char) (t : doc) (p : regex) (c : char) (s : doc) :
  is_space x = false -> accepts Space c = true ->
  match_here (lits (x :: t) ++ p) (c :: s) = None.
Proof.
  intros Hx Hc. simpl in *. destruct (N.eqb_spec x c) as [->|]; congruence.
Qed.

Lemma match_parseTime (w post : doc) :
  w <> [] -> all_space w = true ->
  match_here parseTime_re (w ++ parseTime_tok ++ LF :: post) =
    Some (length (w ++ parseTime_tok ++ [LF])).
Proof.
  intros Hne Hw. unfold parseTime_re. cbn [match_here].
  rewrite plus_greedy_run; auto.
  - rewrite match_lits. simpl. rewrite !length_app. simpl.
    f_equal; lia.
  - intros c s. now apply lits_reject_space.
  - reflexivity.
Qed.

Lemma match_language (w1 w2 w3 post : doc) :
  w1 <> [] -> all_space w1 = true ->
  w2 <> [] -> all_space w2 = true ->
  w3 <> [] -> all_space w3 = true ->
  match_here language_re
    (w1 ++ language_tok ++ w2 ++ resolved_tok ++ LF :: w3 ++ close_tok ++ post) =
    Some (length (w1 ++ language_tok ++ w2 ++ resolved_tok
                     ++ LF :: w3 ++ close_tok)).
Proof.
  intros Hne1 Hw1 Hne2 Hw2 Hne3 Hw3. unfold language_re. cbn [match_here].
  rewrite plus_greedy_run; auto;
    [| intros c s; now apply lits_reject_space | reflexivity].
  rewrite match_lits. cbn [match_here].
  rewrite plus_greedy_run; auto;
    [| intros c s; now apply lits_reject_space | reflexivity].
  rewrite match_lits.
  change (match_here (One (Lit LF) :: Plus Space :: lits close_tok)
            (LF :: w3 ++ close_tok ++ post))
    with (option_map S (plus_greedy Space (match_here (lits close_tok))
                          (w3 ++ close_tok ++ post))).
  rewrite plus_greedy_run; auto;
    [| intros c s; now apply (lits_reject_space 125%N (of_string ",") [])
     | reflexivity].
  rewrite <- (app_nil_r (lits close_tok)), match_lits. simpl.
  rewrite !length_app. simpl. rewrite !length_app. simpl.
  rewrite !length_app. simpl. f_equal; lia.
Qed.

(** ** Where a match can start *)

Lemma ends_in_space_cons (c : char) (b : doc) :
  b <> [] -> ends_in_space (c :: b) = ends_in_space b.
Proof.
  intros Hb. unfold ends_in_space. simpl.
  destruct (rev b) as [|y l] eqn:E; [|reflexivity].
  apply (f_equal (@rev char)) in E. rewrite rev_involutive in E. now subst.
Qed.

Lemma ends_in_space_suffix (a b : doc) :
  b <> [] -> ends_in_space (a ++ b) = ends_in_space b.
Proof.
  intros Hb. induction a as [|c a IH]; [reflexivity|].
  simpl. rewrite ends_in_space_cons; [exact IH|].
  destruct a; simpl; [assumption|discriminate].
Qed.

(** Two texts that agree: one starts with the other, or the longer one
    holds the character that follows the shorter. *)
Lemma app_eq_prefix (b : doc) (x : char) (rest t r : doc) :
  b ++ x :: rest = t ++ r -> starts_with t b = true \/ In x t.
Proof.
  revert t; induction b as [|c b IH]; intros t H.
  - destruct t as [|y t]; [now left|]. simpl in H. injection H as <- _.
    right. now left.
  - destruct t as [|y t]; [now left|]. simpl in H. injection H as <- H.
    destruct (IH _ H) as [Hs|Hi].
    + left. simpl. now rewrite N.eqb_refl.
    + right. now right.
Qed.

Lemma has_match_inv (p : regex) (s : doc) :
  has_match p s = true ->
  exists a b n, s = a ++ b /\ match_here p b = Some n.
Proof.
  induction s as [|c s IH]; simpl; intros H.
  - destruct (match_here p []) as [n|] eqn:E; [|discriminate].
    now exists [], [], n.
  - destruct (match_here p (c :: s)) as [n|] eqn:E.
    + now exists [], (c :: s), n.
    + destruct (IH H) as (a & b & n & -> & Hb). now exists (c :: a), b, n.
Qed.

(** A match of rule 1 holds the token. *)
Lemma parseTime_match_holds_token (s : doc) :
  has_match parseTime_re s = true -> occurs parseTime_tok s = true.
Proof.
  intros H. apply has_match_inv in H as (a & b & n & -> & H).
  apply match_here_sound in H as (m & r & -> & _ & H).
  apply in_lang_parseTime in H as (w & _ & _ & ->).
  replace (a ++ (w ++ parseTime_tok ++ [LF]) ++ r)
    with ((a ++ w) ++ parseTime_tok ++ ([LF] ++ r))
    by (now rewrite <- !app_assoc).
  apply occurs_app.
Qed.

(** A match of rule 3 holds a match of the key-value line. *)
Lemma language_match_holds_key_value (s : doc) :
  has_match language_re s = true -> has_match key_value_re s = true.
Proof.
  intros H. apply has_match_inv in H as (a & b & n & -> & H).
  apply match_here_sound in H as (m & r & -> & _ & H).
  apply in_lang_language in H
    as (w1 & w2 & w3 & _ & [Hne2 Hw2] & _ & ->).
  replace (a ++ (w1 ++ language_tok ++ w2 ++ resolved_tok
                    ++ LF :: w3 ++ close_tok) ++ r)
    with ((a ++ w1) ++ (language_tok ++ w2 ++ resolved_tok)
            ++ (LF :: w3 ++ close_tok ++ r)).
  - apply has_match_at, match_here_complete, in_lang_key_value. now exists w2.
  - rewrite <- !app_assoc. simpl. now rewrite <- !app_assoc.
Qed.

Lemma no_space_in_parseTime :
  forallb (fun c => negb (is_space c)) parseTime_tok = true.
Proof. reflexivity. Qed.

Lemma no_space_in_language :
  forallb (fun c => negb (is_space c)) language_tok = true.
Proof. reflexivity. Qed.

(** ** Text before and after a match *)

(** When the matches that start in [pre] are the same with and without
    the text that follows, the scan of the whole is the scan of the two
    parts. *)
Lemma sub_app (p : regex) (r rest : doc) :
  match_here p [] = None ->
  forall pre : doc,
    (forall a b, pre = a ++ b -> b <> [] ->
                 match_here p (b ++ rest) = match_here p b) ->
    sub p r (pre ++ rest) = sub p r pre ++ sub p r rest.
Proof.
  intros Hnil pre. induction pre as [pre IH] using doc_length_ind.
  intros H. destruct pre as [|c pre].
  - rewrite sub_nil, Hnil. reflexivity.
  - simpl app at 1. rewrite !sub_cons.
    assert (match_here p (c :: pre ++ rest) = match_here p (c :: pre)) as ->
      by (apply (H [] (c :: pre) eq_refl); discriminate).
    destruct (match_here p (c :: pre)) as [[|n]|] eqn:E.
    + rewrite IH; [now rewrite <- app_assoc | simpl; lia |].
      intros a b -> Hb. now apply (H (c :: a) b).
    + apply match_here_le in E. simpl in E.
      rewrite skipn_app.
      replace (n - length pre) with 0 by lia. simpl skipn at 2.
      rewrite IH; [now rewrite <- app_assoc | |].
      * rewrite length_skipn. simpl. lia.
      * intros a b E' Hb. apply (H (c :: firstn n pre ++ a) b); [|assumption].
        simpl. rewrite <- app_assoc, <- E'. now rewrite firstn_skipn.
    + simpl. f_equal. apply IH; [simpl; lia|].
      intros a b -> Hb. now apply (H (c :: a) b).
Qed.

Lemma ends_with_inv (t s : doc) :
  ends_with t s = true -> exists s0, s = s0 ++ t.
Proof.
  unfold ends_with. intros H. apply starts_with_inv in H as [r E].
  exists (rev r). apply (f_equal (@rev char)) in E.
  now rewrite rev_involutive, rev_app_distr, rev_involutive in E.
Qed.

Lemma ends_with_app (a t : doc) : ends_with t (a ++ t) = true.
Proof. unfold ends_with. rewrite rev_app_distr. apply starts_with_app. Qed.

Lemma ends_with_suffix (t a b : doc) :
  ends_with t (a ++ b) = false -> ends_with t b = false.
Proof.
  intros H. destruct (ends_with t b) eqn:E; [|reflexivity].
  apply ends_with_inv in E as [s0 ->].
  now rewrite app_assoc, ends_with_app in H.
Qed.

(** A whitespace run and a token read from inside [b], which does not
    end in whitespace and is followed by whitespace, lie inside [b]. *)
Lemma run_and_token_inside (t b : doc) (x : char) (rest W r : doc) :
  forallb (fun c => negb (is_space c)) t = true ->
  b <> [] -> ends_in_space b = false -> is_space x = true ->
  all_space W = true ->
  b ++ x :: rest = W ++ t ++ r ->
  exists b2, b = W ++ t ++ b2 /\ b2 ++ x :: rest = r.
Proof.
  intros Ht. revert W; induction b as [|c b IH]; intros W Hb He Hx HW H;
    [congruence|].
  destruct W as [|c0 W].
  - simpl in H. destruct (app_eq_prefix (c :: b) x rest t r H) as [Hs|Hi].
    + apply starts_with_inv in Hs as [b2 E]. exists b2. split; [exact E|].
      change (c :: b ++ x :: rest) with ((c :: b) ++ x :: rest) in H.
      rewrite E, <- app_assoc in H. now apply app_inv_head in H.
    + rewrite forallb_forall in Ht. specialize (Ht _ Hi).
      rewrite Hx in Ht. discriminate.
  - simpl in H. injection H as <- H. simpl in HW.
    apply andb_true_iff in HW as [Hc HW].
    destruct b as [|c' b].
    + unfold ends_in_space in He. simpl in He. congruence.
    + rewrite ends_in_space_cons in He by discriminate.
      destruct (IH W) as (b2 & E & Er); auto; [discriminate|].
      exists b2. split; [|exact Er]. simpl. now rewrite E.
Qed.

(** Two whitespace runs, each up to a character that is not whitespace. *)
Lemma run_unique (W1 W2 : doc) (y1 y2 : char) (r1 r2 : doc) :
  all_space W1 = true -> all_space W2 = true ->
  is_space y1 = false -> is_space y2 = false ->
  W1 ++ y1 :: r1 = W2 ++ y2 :: r2 -> y1 = y2.
Proof.
  revert W2; induction W1 as [|c W1 IH]; intros W2 H1 H2 Hy1 Hy2 E.
  - destruct W2 as [|c2 W2]; simpl in E; injection E as -> _; [reflexivity|].
    simpl in H2. apply andb_true_iff in H2 as [H2 _]. congruence.
  - destruct W2 as [|c2 W2]; simpl in E; injection E as -> E.
    + simpl in H1. apply andb_true_iff in H1 as [H1 _]. congruence.
    + simpl in H1, H2. apply andb_true_iff in H1 as [_ H1].
      apply andb_true_iff in H2 as [_ H2]. now apply (IH W2).
Qed.

Lemma all_space_app (a b : doc) :
  all_space (a ++ b) = all_space a && all_space b.
Proof. apply forallb_app. Qed.

(** A match of either pattern stays a match when text is appended. *)
Lemma parseTime_match_extends (b s : doc) (n : nat) :
  match_here parseTime_re b = Some n ->
  match_here parseTime_re (b ++ s) = Some n.
Proof.
  intros H. apply match_here_sound in H as (m & r & -> & <- & H).
  apply in_lang_parseTime in H as (w & Hne & Hw & ->).
  rewrite <- !app_assoc. simpl. now apply match_parseTime.
Qed.

Lemma language_match_extends (b s : doc) (n : nat) :
  match_here language_re b = Some n ->
  match_here language_re (b ++ s) = Some n.
Proof.
  intros H. apply match_here_sound in H as (m & r & -> & <- & H).
  apply in_lang_language in H
    as (w1 & w2 & w3 & [Hne1 Hw1] & [Hne2 Hw2] & [Hne3 Hw3] & ->).
  rewrite <- (match_language w1 w2 w3 (r ++ s)) by assumption. f_equal.
  rewrite <- !app_assoc. simpl. now rewrite <- !app_assoc.
Qed.

(** A match of rule 1 that starts inside [b] ends inside [b], unless [b]
    ends with the token and a line feed follows. *)
Lemma parseTime_match_local (b : doc) (x : char) (rest : doc) :
  b <> [] -> ends_in_space b = false -> is_space x = true ->
  ends_with parseTime_tok b = false ->
  match_here parseTime_re (b ++ x :: rest) = match_here parseTime_re b.
Proof.
  intros Hb He Hx Hend.
  destruct (match_here parseTime_re b) as [n|] eqn:E.
  - now apply parseTime_match_extends.
  - destruct (match_here parseTime_re (b ++ x :: rest)) as [n|] eqn:E';
      [|reflexivity].
    apply match_here_sound in E' as (m & r & E' & _ & H).
    apply in_lang_parseTime in H as (w & Hne & Hw & ->).
    rewrite <- !app_assoc in E'.
    destruct (run_and_token_inside parseTime_tok b x rest w _
                no_space_in_parseTime Hb He Hx Hw E') as (b2 & -> & Er).
    destruct b2 as [|c b2].
    + now rewrite app_nil_r, ends_with_app in Hend.
    + simpl in Er. injection Er as -> _.
      now rewrite match_parseTime in E.
Qed.

Lemma no_space_in_resolved :
  forallb (fun c => negb (is_space c)) resolved_tok = true.
Proof. reflexivity. Qed.

Lemma no_space_in_close :
  forallb (fun c => negb (is_space c)) close_tok = true.
Proof. reflexivity. Qed.

(** A match of rule 3 that starts inside [b] ends inside [b] when what
    follows [b] is a whitespace run and then [language:]. *)
Lemma language_match_local (b : doc) (x : char) (rest W0 tail : doc) :
  b <> [] -> ends_in_space b = false -> is_space x = true ->
  all_space W0 = true -> x :: rest = W0 ++ language_tok ++ tail ->
  match_here language_re (b ++ x :: rest) = match_here language_re b.
Proof.
  intros Hb He Hx HW0 Erest.
  destruct (match_here language_re b) as [n|] eqn:E.
  - now apply language_match_extends.
  - destruct (match_here language_re (b ++ x :: rest)) as [n|] eqn:E';
      [|reflexivity].
    exfalso.
    apply match_here_sound in E' as (m & r & E' & _ & H).
    apply in_lang_language in H
      as (w1 & w2 & w3 & [Hne1 Hw1] & [Hne2 Hw2] & [Hne3 Hw3] & ->).
    rewrite <- !app_assoc, <- app_comm_cons, <- !app_assoc in E'.
    destruct (run_and_token_inside language_tok b x rest w1 _
                no_space_in_language Hb He Hx Hw1 E') as (b2 & Eb & E2).
    destruct b2 as [|c2 b2'].
    { simpl in E2. rewrite Erest in E2.
      assert (108%N = 114%N) as Habs
        by (apply (run_unique W0 w2 108%N 114%N _ _ HW0 Hw2
                     eq_refl eq_refl E2)).
      discriminate. }
    remember (c2 :: b2') as b2 eqn:Eb2.
    assert (b2 <> []) as Hb2 by (subst b2; discriminate).
    assert (ends_in_space b2 = false) as He2.
    { rewrite Eb, app_assoc, ends_in_space_suffix in He; assumption. }
    destruct (run_and_token_inside resolved_tok b2 x rest w2 _
                no_space_in_resolved Hb2 He2 Hx Hw2 E2) as (b3 & Eb3 & E3).
    destruct b3 as [|c3 b4].
    { simpl in E3. rewrite Erest in E3.
      assert (108%N = 125%N) as Habs.
      { apply (run_unique W0 (LF :: w3) 108%N 125%N
                 (of_string "anguage:" ++ tail) (of_string "," ++ r)).
        - exact HW0.
        - simpl. exact Hw3.
        - reflexivity.
        - reflexivity.
        - exact E3. }
      discriminate. }
    simpl in E3. injection E3 as -> E3.
    destruct b4 as [|c4 b4'].
    { rewrite Eb3, app_assoc, ends_in_space_suffix in He2 by discriminate.
      discriminate. }
    remember (c4 :: b4') as b4 eqn:Eb4.
    assert (b4 <> []) as Hb4 by (subst b4; discriminate).
    assert (ends_in_space b4 = false) as He4.
    { rewrite Eb3 in He2.
      replace (w2 ++ resolved_tok ++ LF :: b4)
        with ((w2 ++ resolved_tok ++ [LF]) ++ b4) in He2
        by (now rewrite <- !app_assoc).
      rewrite ends_in_space_suffix in He2; assumption. }
    destruct (run_and_token_inside close_tok b4 x rest w3 _
                no_space_in_close Hb4 He4 Hx Hw3 E3) as (b5 & Eb5 & _).
    rewrite Eb, Eb3, Eb5 in E.
    rewrite match_language in E by assumption. discriminate.
Qed.

(** ** Trailing whitespace *)

Lemma lstrip_split (s : doc) :
  exists w, s = w ++ lstrip s /\ all_space w = true.
Proof.
  induction s as [|c s (w & E & Hw)]; simpl.
  - now exists [].
  - destruct (is_space c) eqn:Hc.
    + exists (c :: w). simpl. rewrite Hc, Hw. now rewrite <- E.
    + now exists [].
Qed.

Lemma lstrip_head (s : doc) :
  match lstrip s with
  | [] => True
  | c :: _ => is_space c = false
  end.
Proof.
  induction s as [|c s IH]; simpl; [exact I|].
  destruct (is_space c) eqn:Hc; [exact IH|exact Hc].
Qed.

Lemma all_space_rev (w : doc) : all_space (rev w) = all_space w.
Proof.
  unfold all_space. induction w as [|c w IH]; [reflexivity|].
  simpl. rewrite forallb_app, IH. simpl.
  rewrite andb_true_r. apply andb_comm.
Qed.

Lemma rstrip_split (s : doc) :
  exists w, s = rstrip s ++ w /\ all_space w = true /\
            ends_in_space (rstrip s) = false.
Proof.
  destruct (lstrip_split (rev s)) as (w & E & Hw).
  exists (rev w). repeat split.
  - unfold rstrip. rewrite <- rev_app_distr, <- E. now rewrite rev_involutive.
  - now rewrite all_space_rev.
  - unfold ends_in_space, rstrip. rewrite rev_involutive.
    pose proof (lstrip_head (rev s)) as H.
    now destruct (lstrip (rev s)).
Qed.

(** ** Rule 3 at one of its targets *)

Lemma rule3_at_block (pre w1 w2 w3 post : doc) :
  w1 <> [] -> all_space w1 = true ->
  w2 <> [] -> all_space w2 = true ->
  w3 <> [] -> all_space w3 = true ->
  ends_in_space pre = false ->
  rule3 (pre ++ w1 ++ language_tok ++ w2 ++ resolved_tok
             ++ LF :: w3 ++ close_tok ++ post)
  = rule3 pre ++ repl fix3 ++ rule3 post.
Proof.
  intros Hne1 Hw1 Hne2 Hw2 Hne3 Hw3 He. unfold rule3.
  rewrite sub_app; [f_equal | reflexivity |].
  - replace (w1 ++ language_tok ++ w2 ++ resolved_tok
                ++ LF :: w3 ++ close_tok ++ post)
      with ((w1 ++ language_tok ++ w2 ++ resolved_tok
                ++ LF :: w3 ++ close_tok) ++ post).
    + rewrite sub_at_match; [reflexivity| |].
      * destruct w1; [congruence|discriminate].
      * rewrite <- (match_language w1 w2 w3 post) by assumption. f_equal.
        rewrite <- !app_assoc. simpl. now rewrite <- !app_assoc.
    + rewrite <- !app_assoc. simpl. now rewrite <- !app_assoc.
  - intros a b -> Hb. destruct w1 as [|x w1]; [congruence|].
    simpl in Hw1. apply andb_true_iff in Hw1 as [Hx Hw1].
    apply (language_match_local b x _ (x :: w1)
             (w2 ++ resolved_tok ++ LF :: w3 ++ close_tok ++ post)); auto.
    + now rewrite ends_in_space_suffix in He.
    + simpl. now rewrite Hx.
Qed.

(** ** What rule 1 leaves behind *)

(** Output that holds no character of the replacement was copied. *)
Lemma sub_copied (p : regex) (r0 : char) (r u : doc) :
  ~ In r0 u ->
  forall s t, sub p (r0 :: r) s = u ++ t -> exists t', s = u ++ t'.
Proof.
  induction u as [|x u IH]; intros Hu s t H.
  - now exists s.
  - assert (r0 <> x) as Hx by (intros ->; apply Hu; now left).
    assert (~ In r0 u) as Hu' by (intros Hi; apply Hu; now right).
    destruct s as [|c s].
    + rewrite sub_nil in H. destruct (match_here p []); simpl in H;
        [injection H as E _; congruence | discriminate].
    + rewrite sub_cons in H.
      destruct (match_here p (c :: s)) as [[|n]|]; simpl in H;
        injection H as E H; try congruence.
      subst c. destruct (IH Hu' _ _ H) as [t' ->]. now exists t'.
Qed.

(** What the test on the tokens says. *)
Lemma tokens_indented_from_spec (prev : option char) (s : doc) :
  tokens_indented_from prev s = true <->
  forall a b, s = a ++ parseTime_tok ++ b ->
    ((a = [] /\ exists c, prev = Some c /\ indent_char c = true) \/
     (exists a' c, a = a' ++ [c] /\ indent_char c = true)) /\
    (exists b', b = LF :: b').
Proof.
  revert prev; induction s as [|c s IH]; intros prev.
  - split; [|reflexivity]. intros _ a b E.
    destruct a; discriminate.
  - cbn [tokens_indented_from]. rewrite andb_true_iff, (IH (Some c)). split.
    + intros [H1 H2] a b E. destruct a as [|x a].
      * cbn [app] in E. rewrite E, starts_with_app in H1.
        apply andb_true_iff in H1 as [Hp Hn].
        apply starts_with_inv in Hn as [r Er].
        rewrite <- app_assoc in Er. apply app_inv_head in Er.
        split; [left; split; [reflexivity|] | now exists r].
        destruct prev as [c0|]; [now exists c0 | discriminate].
      * cbn [app] in E. injection E as <- E.
        destruct (H2 a b E) as [[[-> (c0 & Ec & Hc)]|(a' & c0 & -> & Hc)] Hb];
          (split; [right | exact Hb]).
        -- injection Ec as <-. now exists [], c.
        -- now exists (c :: a'), c0.
    + intros H. split.
      * destruct (starts_with parseTime_tok (c :: s)) eqn:Hs; [|reflexivity].
        apply starts_with_inv in Hs as [r Er].
        destruct (H [] r Er) as [[[_ (c0 & -> & Hc)]|(a' & c0 & Ea & _)]
                                   [b' ->]].
        -- rewrite Hc, Er. cbn [andb].
           replace (parseTime_tok ++ LF :: b')
             with ((parseTime_tok ++ [LF]) ++ b')
             by (now rewrite <- app_assoc).
           apply starts_with_app.
        -- destruct a'; discriminate.
      * intros a b E.
        destruct (H (c :: a) b) as [[[Ea _]|(a' & c0 & Ea & Hc)] Hb];
          [cbn [app]; now rewrite E | discriminate |].
        split; [|exact Hb]. destruct a' as [|x a'].
        -- injection Ea as -> ->. left. split; [reflexivity|]. now exists c0.
        -- injection Ea as _ ->. right. now exists a', c0.
Qed.

Lemma tokens_indented_spec (d : doc) :
  tokens_indented d = true <->
  forall a b, d = a ++ parseTime_tok ++ b ->
    (exists a' c, a = a' ++ [c] /\ indent_char c = true) /\
    (exists b', b = LF :: b').
Proof.
  unfold tokens_indented. rewrite tokens_indented_from_spec.
  split; intros H a b E; destruct (H a b E) as [Ha Hb]; (split; [|exact Hb]).
  - destruct Ha as [[_ (c & Ec & _)]|Ha]; [discriminate | exact Ha].
  - now right.
Qed.

Lemma tokens_indented_from_rest (prev : option char) (s : doc) :
  tokens_indented_from prev s = true ->
  starts_with parseTime_tok s = false ->
  tokens_indented_from None s = true.
Proof.
  destruct s as [|c s]; [reflexivity|].
  intros H Hs. cbn [tokens_indented_from] in *. rewrite Hs in *. exact H.
Qed.

Lemma tokens_indented_from_skip (prev : option char) (a : doc) (c : char)
    (b : doc) :
  tokens_indented_from prev (a ++ c :: b) = true ->
  tokens_indented_from (Some c) b = true.
Proof.
  revert prev; induction a as [|x a IH]; intros prev H.
  - cbn [app tokens_indented_from] in H.
    now apply andb_true_iff in H as [_ H].
  - change ((x :: a) ++ c :: b) with (x :: a ++ c :: b) in H.
    cbn [tokens_indented_from] in H.
    apply andb_true_iff in H as [_ H]. now apply (IH (Some x)).
Qed.

(** After a line feed no token passes the test, so none starts there. *)
Lemma tokens_indented_after_LF (s : doc) :
  tokens_indented_from (Some LF) s = true ->
  tokens_indented_from None s = true.
Proof.
  intros H. apply (tokens_indented_from_rest (Some LF)); [exact H|].
  destruct s as [|c s]; [reflexivity|].
  cbn [tokens_indented_from] in H.
  destruct (starts_with parseTime_tok (c :: s)); [|reflexivity].
  simpl in H. discriminate.
Qed.

Lemma rule1_leaves_no_token (s : doc) :
  tokens_indented_from None s = true ->
  occurs parseTime_tok (rule1 s) = false.
Proof.
  unfold rule1. induction s as [s IH] using doc_length_ind. intros H.
  destruct s as [|c s]; [reflexivity|].
  rewrite sub_cons.
  destruct (match_here parseTime_re (c :: s)) as [[|n]|] eqn:E.
  - apply match_here_min in E. simpl in E. lia.
  - (* a match: the scan resumes after its line feed *)
    pose proof (match_here_le _ _ _ E) as Hle. simpl in Hle.
    apply match_here_sound in E as (m & r & E & Hlen & Hm).
    apply in_lang_parseTime in Hm as (w & Hne & Hw & ->).
    assert (skipn n s = r) as ->.
    { change (skipn n s) with (skipn (S n) (c :: s)).
      now rewrite E, <- Hlen, skipn_app, skipn_all, Nat.sub_diag. }
    assert (occurs parseTime_tok (sub parseTime_re (repl fix1) r) = false)
      as Hr.
    { apply IH.
      - apply (f_equal (@length char)) in E. rewrite !length_app in E.
        simpl in E |- *. lia.
      - apply tokens_indented_after_LF.
        apply (tokens_indented_from_skip None (w ++ parseTime_tok)).
        rewrite E in H. now rewrite <- !app_assoc in *. }
    change (repl fix1 ++ sub parseTime_re (repl fix1) r)
      with (LF :: sub parseTime_re (repl fix1) r).
    cbn [occurs]. rewrite Hr. reflexivity.
  - (* no match: the character is copied *)
    cbn [tokens_indented_from] in H.
    destruct (starts_with parseTime_tok (c :: s)) eqn:Hs;
      [simpl in H; discriminate|].
    simpl in H.
    assert (starts_with parseTime_tok s = false) as Hs'.
    { destruct (starts_with parseTime_tok s) eqn:Hs'; [|reflexivity].
      exfalso. destruct s as [|c' s]; [discriminate|].
      cbn [tokens_indented_from] in H. rewrite Hs' in H.
      apply andb_true_iff in H as [H _].
      apply andb_true_iff in H as [Hc H].
      apply andb_true_iff in Hc as [Hc _].
      apply starts_with_inv in H as [r Er]. rewrite Er in E.
      replace (c :: (parseTime_tok ++ [LF]) ++ r)
        with ([c] ++ parseTime_tok ++ LF :: r) in E
        by (now rewrite <- app_assoc).
      rewrite (match_parseTime [c] r) in E; [discriminate|discriminate|].
      simpl. now rewrite Hc. }
    assert (occurs parseTime_tok (sub parseTime_re (repl fix1) s) = false)
      as Hr.
    { apply IH; [simpl; lia|].
      now apply (tokens_indented_from_rest (Some c)). }
    cbn [occurs]. rewrite Hr, orb_false_r.
    destruct (starts_with parseTime_tok
                (c :: sub parseTime_re (repl fix1) s)) eqn:Ho;
      [|reflexivity].
    exfalso. apply starts_with_inv in Ho as [t Et].
    change parseTime_tok with (112%N :: of_string "arseTime,") in Et.
    simpl app in Et. injection Et as -> Et.
    destruct (sub_copied parseTime_re LF [] (of_string "arseTime,")
                ltac:(vm_compute; intuition discriminate) s t Et)
      as [t' ->].
    exact (eq_true_false_abs _ (starts_with_app parseTime_tok t') Hs).
Qed.

(** ** Rule 3 on the key-value block *)

(** C2, as stated, fails: the block alone is not rewritten to a line
    feed and a closing brace with two-space indentation. *)
Lemma language_block_indentation_not_kept :
  rule3 language_block <> language_block_expected.
Proof. vm_compute. discriminate. Qed.

(** C2, amended: in every text that holds the block, rule 3 replaces the
    block, and the whitespace run that ends right before it, by a line
    feed and a closing brace and comma behind eight spaces; the text
    before that run and the text after the block are rewritten by rule 3
    on their own. *)
Theorem rule3_on_language_block (pre post : doc) :
  rule3 (pre ++ language_block ++ post)
  = rule3 (rstrip pre) ++ (LF :: of_string "        },") ++ rule3 post.
Proof.
  destruct (rstrip_split pre) as (w & E & Hw & He).
  rewrite E at 1.
  replace ((rstrip pre ++ w) ++ language_block ++ post)
    with (rstrip pre ++ (w ++ of_string "  ") ++ language_tok
            ++ of_string " " ++ resolved_tok
            ++ LF :: of_string "  " ++ close_tok ++ post).
  - apply rule3_at_block; auto; try discriminate.
    + destruct w; discriminate.
    + rewrite all_space_app, Hw. reflexivity.
  - unfold language_block. rewrite <- !app_assoc. reflexivity.
Qed.

(** ** Rule 1 on a [parseTime,] line *)

(** C3, as stated, fails: an indented [parseTime,] line after a blank
    line is removed together with the blank line. *)
Lemma blank_line_before_token_is_lost :
  strip token_line = parseTime_tok /\
  ~ line_removed lines_before token_line lines_after /\
  rule1 (join_lines (lines_before ++ token_line :: lines_after))
  = join_lines (of_string "a" :: lines_after).
Proof.
  split; [reflexivity | split; [|vm_compute; reflexivity]].
  unfold line_removed. vm_compute. discriminate.
Qed.

(** A [parseTime,] line with no whitespace before it is not matched. *)
Lemma unindented_token_line_is_kept :
  rule1 (parseTime_tok ++ LF :: of_string "b")
  = parseTime_tok ++ LF :: of_string "b".
Proof. vm_compute. reflexivity. Qed.

(** C3, amended: where the token stands after a whitespace run [w] and
    before a line feed, rule 1 replaces the run, the token and the line
    feed by one line feed, provided the text before the run does not end
    with the token; the text before and the text after are rewritten by
    rule 1 on their own.  The run is all the whitespace before the token:
    the indentation, the line feed before it, and blank lines before
    that. *)
Theorem rule1_removes_token_line (pre w post : doc) :
  w <> [] -> all_space w = true ->
  ends_in_space pre = false -> ends_with parseTime_tok pre = false ->
  rule1 (pre ++ w ++ parseTime_tok ++ LF :: post)
  = rule1 pre ++ LF :: rule1 post.
Proof.
  intros Hne Hw He Hend. unfold rule1.
  rewrite sub_app; [f_equal | reflexivity |].
  - replace (w ++ parseTime_tok ++ LF :: post)
      with ((w ++ parseTime_tok ++ [LF]) ++ post)
      by (now rewrite <- !app_assoc).
    rewrite sub_at_match; [reflexivity| |].
    + destruct w; [congruence|discriminate].
    + rewrite <- !app_assoc. simpl. now apply match_parseTime.
  - intros a b -> Hb. destruct w as [|x w]; [congruence|].
    simpl in Hw. apply andb_true_iff in Hw as [Hx _].
    apply parseTime_match_local; auto.
    + now rewrite ends_in_space_suffix in He.
    + now apply ends_with_suffix in Hend.
Qed.

Lemma rule1_removes_token_line_witness :
  LF :: of_string "    " <> [] /\
  all_space (LF :: of_string "    ") = true /\
  ends_in_space (of_string "a,") = false /\
  ends_with parseTime_tok (of_string "a,") = false /\
  rule1 (of_string "a," ++ (LF :: of_string "    ") ++ parseTime_tok
           ++ LF :: of_string "b,")
  = rule1 (of_string "a,") ++ LF :: rule1 (of_string "b,").
Proof.
  assert (LF :: of_string "    " <> []) as H1 by discriminate.
  assert (all_space (LF :: of_string "    ") = true) as H2 by reflexivity.
  assert (ends_in_space (of_string "a,") = false) as H3 by reflexivity.
  assert (ends_with parseTime_tok (of_string "a,") = false) as H4
    by reflexivity.
  split; [exact H1 | split; [exact H2 | split; [exact H3 | split;
    [exact H4 |]]]].
  exact (rule1_removes_token_line (of_string "a,") (LF :: of_string "    ")
           (of_string "b,") H1 H2 H3 H4).
Defined.

(** ** Rule 2 after rule 1 *)

(** C4, as stated, fails: after rule 1 has removed a first token line, a
    token that followed it at the start of the next line stands after the
    replacement line feed, and rule 2 removes it. *)
Lemma rule2_changes_rule1_output :
  has_match parseTime_re (rule1 adjacent_tokens) = true /\
  rule2 (rule1 adjacent_tokens) <> rule1 adjacent_tokens.
Proof. vm_compute. split; [reflexivity|discriminate]. Qed.

(** C4, amended: when every [parseTime,] of the text stands right after
    a whitespace character other than a line feed and right before a
    line feed, rule 1 leaves no [parseTime,] and no match behind, and
    rule 2 changes nothing. *)
Theorem rule2_after_rule1_is_identity (d : doc) :
  tokens_indented d = true ->
  occurs parseTime_tok (rule1 d) = false /\
  has_match parseTime_re (rule1 d) = false /\
  rule2 (rule1 d) = rule1 d.
Proof.
  intros H. apply rule1_leaves_no_token in H.
  assert (has_match parseTime_re (rule1 d) = false) as Hm.
  { destruct (has_match parseTime_re (rule1 d)) eqn:E; [|reflexivity].
    apply parseTime_match_holds_token in E. congruence. }
  repeat split; auto. rewrite rule2_is_rule1. now apply rule1_no_match.
Qed.

Lemma rule2_after_rule1_is_identity_witness :
  tokens_indented two_token_lines = true /\
  occurs parseTime_tok (rule1 two_token_lines) = false /\
  has_match parseTime_re (rule1 two_token_lines) = false /\
  rule2 (rule1 two_token_lines) = rule1 two_token_lines.
Proof.
  assert (tokens_indented two_token_lines = true) as H
    by (vm_compute; reflexivity).
  split; [exact H |].
  exact (rule2_after_rule1_is_identity two_token_lines H).
Defined.

(** ** Texts without the targets *)

(** C5, as stated, fails: a text with neither [parseTime,] nor
    [language: resolvedLanguage,] is changed when two spaces separate the
    key from the value. *)
Lemma two_spaces_after_key_still_match :
  occurs parseTime_tok wide_key_value = false /\
  occurs (of_string "language: resolvedLanguage,") wide_key_value = false /\
  engine wide_key_value <> wide_key_value.
Proof. vm_compute. repeat split. discriminate. Qed.

(** C5, amended: a text with no [parseTime,] and no [language:] followed
    by whitespace and [resolvedLanguage,] comes out of the three rules
    as it went in. *)
Theorem engine_identity_without_targets (d : doc) :
  occurs parseTime_tok d = false ->
  has_match key_value_re d = false ->
  engine d = d.
Proof.
  intros Ht Hk.
  assert (rule1 d = d) as H1.
  { apply rule1_no_match.
    destruct (has_match parseTime_re d) eqn:E; [|reflexivity].
    apply parseTime_match_holds_token in E. congruence. }
  unfold engine. rewrite rule2_is_rule1, !H1.
  apply rule3_no_match.
  destruct (has_match language_re d) eqn:E; [|reflexivity].
  apply language_match_holds_key_value in E. congruence.
Qed.

Lemma engine_identity_without_targets_witness :
  occurs parseTime_tok plain_text = false /\
  has_match key_value_re plain_text = false /\
  engine plain_text = plain_text.
Proof.
  assert (occurs parseTime_tok plain_text = false) as H1
    by (vm_compute; reflexivity).
  assert (has_match key_value_re plain_text = false) as H2
    by (vm_compute; reflexivity).
  split; [exact H1 | split; [exact H2 |]].
  exact (engine_identity_without_targets plain_text H1 H2).
Defined.

(** ** The end-to-end scenario *)

(** C1, as stated, fails: on the scenario input the three rules do not
    produce the text without the [parseTime,] and [language:] lines.  The
    object closes with a brace and a semicolon, which rule 3 does not
    match, so the [language:] line stays. *)
Lemma scenario_not_as_expected : engine scenario_input <> scenario_expected.
Proof. vm_compute. discriminate. Qed.

(** C1, amended: on the scenario input the three rules, applied in order,
    remove the [parseTime,] line and nothing else; every other line,
    the [language:] line included, keeps its text and indentation. *)
Theorem scenario_output_correct : engine scenario_input = scenario_output.
Proof. vm_compute. reflexivity. Qed.

(** ** Rules that match nothing *)

(** C7: a rule of the rule set whose pattern matches nowhere in the text
    returns the text unchanged, and returns normally. *)
Theorem no_match_rule_is_identity (r : rule) (d : doc) :
  In r rule_set -> rule_matches r d = false -> apply_rule r d = Ok d.
Proof.
  intros Hr H. unfold rule_set in Hr. simpl in Hr.
  destruct Hr as [<-|[<-|[<-|[]]]].
  - rewrite apply_fix1. f_equal. now apply rule1_no_match.
  - rewrite apply_fix2, rule2_is_rule1. f_equal. now apply rule1_no_match.
  - rewrite apply_fix3. f_equal. now apply rule3_no_match.
Qed.

Lemma no_match_rule_is_identity_witness :
  In fix3 rule_set /\ rule_matches fix3 scenario_input = false /\
  apply_rule fix3 scenario_input = Ok scenario_input.
Proof.
  assert (In fix3 rule_set) as Hin by (simpl; auto).
  assert (rule_matches fix3 scenario_input = false) as Hm by (vm_compute; reflexivity).
  split; [exact Hin | split; [exact Hm |]].
  exact (no_match_rule_is_identity fix3 scenario_input Hin Hm).
Defined.

(** C6: when no rule matches anywhere in the output of a first run, a
    second run over that output changes nothing. *)
Theorem second_run_is_identity (d : doc) :
  rule_matches fix1 (engine d) = false ->
  rule_matches fix2 (engine d) = false ->
  rule_matches fix3 (engine d) = false ->
  engine (engine d) = engine d.
Proof.
  intros H1 H2 H3. unfold engine at 1.
  rewrite (rule1_no_match (engine d)) by exact H1.
  rewrite rule2_is_rule1, (rule1_no_match (engine d)) by exact H1.
  now apply rule3_no_match.
Qed.

Lemma second_run_is_identity_witness :
  rule_matches fix1 (engine scenario_input) = false /\
  rule_matches fix2 (engine scenario_input) = false /\
  rule_matches fix3 (engine scenario_input) = false /\
  engine (engine scenario_input) = engine scenario_input.
Proof.
  assert (rule_matches fix1 (engine scenario_input) = false) as H1
    by (vm_compute; reflexivity).
  assert (rule_matches fix2 (engine scenario_input) = false) as H2
    by (vm_compute; reflexivity).
  assert (rule_matches fix3 (engine scenario_input) = false) as H3
    by (vm_compute; reflexivity).
  split; [exact H1 | split; [exact H2 | split; [exact H3 |]]].
  exact (second_run_is_identity scenario_input H1 H2 H3).
Defined.

(** ** Length *)

(** C10: no rule lengthens the text, and neither does their composition:
    the replacements have 1 and 11 characters, and a match of either
    pattern has at least 12. *)
Theorem engine_never_lengthens (d : doc) :
  length (repl fix1) = 1 /\ length (repl fix3) = 11 /\
  length (rule1 d) <= length d /\
  length (rule2 d) <= length d /\
  length (rule3 d) <= length d /\
  length (engine d) <= length d.
Proof.
  repeat split; try reflexivity.
  - apply rule1_length.
  - apply rule1_length.
  - apply rule3_length.
  - unfold engine.
    pose proof (rule3_length (rule2 (rule1 d))).
    pose proof (rule1_length (rule1 d)).
    pose proof (rule1_length d).
    rewrite rule2_is_rule1 in *. lia.
Qed.

(** ** Malformed patterns *)

(** C8, as stated, fails: with a malformed first pattern the script
    halts on the pattern error, but only after it has read the file. *)
Lemma malformed_pattern_halts_after_read :
  existsb malformed [bad_first; fix2; fix3] = true /\
  ~ halts_before_file_access bad_first fix2 fix3
      (World (Some scenario_input) true []) /\
  script bad_first fix2 fix3 (World (Some scenario_input) true [])
  = (Raise PatternFailure, World (Some scenario_input) true [EvRead]).
Proof.
  split; [reflexivity | split; [|reflexivity]].
  unfold halts_before_file_access. intros [_ H].
  vm_compute in H. discriminate.
Qed.

(** On rules whose patterns and replacements are covered here, the
    script is the script over [modelled_re_sub]. *)
Lemma script_using_modelled (r1 r2 r3 : rule) (w : world) :
  forallb in_model [r1; r2; r3] = true ->
  script_using modelled_re_sub r1 r2 r3 w = script r1 r2 r3 w.
Proof.
  intros Hi.
  unfold in_model, script_using, script, call_re, modelled_re_sub, bind,
    read_text, call, re_sub in *.
  simpl in Hi.
  destruct (file w) as [d|]; [|reflexivity].
  destruct (compile (pattern r1)) as [p1|[]]; simpl in *;
    try discriminate; [|reflexivity].
  destruct (existsb (N.eqb BACKSLASH) (repl r1)); simpl in *; [discriminate|].
  destruct (compile (pattern r2)) as [p2|[]]; simpl in *;
    try discriminate; [|reflexivity].
  destruct (existsb (N.eqb BACKSLASH) (repl r2)); simpl in *; [discriminate|].
  destruct (compile (pattern r3)) as [p3|[]]; simpl in *;
    try discriminate; [|reflexivity].
  destruct (existsb (N.eqb BACKSLASH) (repl r3)); simpl in *; [discriminate|].
  reflexivity.
Qed.

(** C8, amended: if one of the three patterns is malformed, whatever
    makes it so, and the file can be read, the script halts on the
    pattern error at the [re.sub] call that compiles it: the file has
    been read by then, nothing else has happened, and the file is never
    written. *)
Theorem malformed_pattern_halts_before_write
    (lib : re_sub_impl) (r1 r2 r3 : rule) (w : world) (d : doc) :
  file w = Some d ->
  rejects lib (pattern r1) \/ rejects lib (pattern r2)
    \/ rejects lib (pattern r3) ->
  script_using lib r1 r2 r3 w = (Raise PatternFailure, emit EvRead w) /\
  file (emit EvRead w) = Some d /\
  events (emit EvRead w) = events w ++ [EvRead].
Proof.
  intros Hf Hbad. split; [|split; [exact Hf | reflexivity]].
  unfold script_using, bind, read_text, call_re, call. rewrite Hf.
  destruct (lib (pattern r1) (repl r1) d) as [d1|] eqn:E1; [|reflexivity].
  destruct (lib (pattern r2) (repl r2) d1) as [d2|] eqn:E2; [|reflexivity].
  destruct (lib (pattern r3) (repl r3) d2) as [d3|] eqn:E3; [|reflexivity].
  exfalso. destruct Hbad as [H|[H|H]].
  - rewrite (H (repl r1) d) in E1. discriminate.
  - rewrite (H (repl r2) d1) in E2. discriminate.
  - rewrite (H (repl r3) d2) in E3. discriminate.
Qed.

Lemma malformed_pattern_halts_before_write_witness :
  file (World (Some scenario_input) true []) = Some scenario_input /\
  (rejects modelled_re_sub (pattern fix1)
   \/ rejects modelled_re_sub (pattern fix2)
   \/ rejects modelled_re_sub (pattern bad_last)) /\
  script_using modelled_re_sub fix1 fix2 bad_last
    (World (Some scenario_input) true [])
  = (Raise PatternFailure, World (Some scenario_input) true [EvRead]).
Proof.
  assert (file (World (Some scenario_input) true []) = Some scenario_input)
    as H0 by reflexivity.
  assert (rejects modelled_re_sub (pattern fix1)
          \/ rejects modelled_re_sub (pattern fix2)
          \/ rejects modelled_re_sub (pattern bad_last)) as H1
    by (right; right; intros r s; reflexivity).
  split; [exact H0 | split; [exact H1 |]].
  exact (proj1 (malformed_pattern_halts_before_write modelled_re_sub
                  fix1 fix2 bad_last
                  (World (Some scenario_input) true []) scenario_input
                  H0 H1)).
Defined.

(** * Further properties of the three calls *)

(** ** What a substitution can and cannot add *)

Lemma subseq_refl (a : doc) : subseq a a.
Proof. induction a; [constructor | now apply subseq_keep]. Qed.

Lemma subseq_empty (b : doc) : subseq [] b.
Proof. induction b; [constructor | now apply subseq_skip]. Qed.

Lemma subseq_app (a1 b1 a2 b2 : doc) :
  subseq a1 b1 -> subseq a2 b2 -> subseq (a1 ++ a2) (b1 ++ b2).
Proof.
  intros H1 H2. induction H1; simpl;
    [assumption | now apply subseq_skip | now apply subseq_keep].
Qed.

Lemma subseq_suffix (x a : doc) : subseq a (x ++ a).
Proof.
  induction x as [|c x IH]; simpl; [apply subseq_refl | now apply subseq_skip].
Qed.

Lemma subseq_trans (a b c : doc) : subseq a b -> subseq b c -> subseq a c.
Proof.
  intros Hab Hbc. revert a Hab.
  induction Hbc as [|x b c Hbc IH|x b c Hbc IH]; intros a Hab.
  - assumption.
  - apply subseq_skip. now apply IH.
  - inversion Hab; subst.
    + apply subseq_skip. now apply IH.
    + apply subseq_keep. now apply IH.
Qed.

Lemma subseq_length (a b : doc) : subseq a b -> length a <= length b.
Proof. induction 1; simpl; lia. Qed.

Section Projection.
(** A view [g] of texts that goes through concatenation, and a
    replacement whose view is inside the view of every match. *)
Variable g : doc -> doc.
Hypothesis g_app : forall a b, g (a ++ b) = g a ++ g b.
Variable p : regex.
Variable r : doc.
Hypothesis r_inside : forall m, in_lang p m -> subseq (g r) (g m).

Lemma sub_subseq (s : doc) : subseq (g (sub p r s)) (g s).
Proof.
  induction s as [s IH] using doc_length_ind.
  destruct s as [|c s].
  - rewrite sub_nil. destruct (match_here p []) as [n|] eqn:E;
      [|apply subseq_refl].
    apply match_here_sound in E as (m & r' & E & _ & Hm).
    symmetry in E. apply app_eq_nil in E as [-> ->]. now apply r_inside.
  - rewrite sub_cons.
    destruct (match_here p (c :: s)) as [[|n]|] eqn:E.
    + apply match_here_sound in E as (m & r' & E & Hl & Hm).
      destruct m; [|discriminate]. simpl in E. subst r'.
      rewrite g_app. change (c :: s) with ([] ++ c :: s). rewrite (g_app []).
      apply subseq_app; [now apply r_inside|].
      change (c :: sub p r s) with ([c] ++ sub p r s).
      change (c :: s) with ([c] ++ s). rewrite !g_app.
      apply subseq_app; [apply subseq_refl | apply IH; simpl; lia].
    + pose proof (match_here_le _ _ _ E) as Hle. simpl in Hle.
      apply match_here_sound in E as (m & r' & E & Hl & Hm).
      assert (skipn n s = r') as ->.
      { change (skipn n s) with (skipn (S n) (c :: s)).
        now rewrite E, <- Hl, skipn_app, skipn_all, Nat.sub_diag. }
      rewrite E, !g_app. apply subseq_app; [now apply r_inside|].
      apply IH. rewrite E, length_app. lia.
    + change (c :: sub p r s) with ([c] ++ sub p r s).
      change (c :: s) with ([c] ++ s). rewrite !g_app.
      apply subseq_app; [apply subseq_refl | apply IH; simpl; lia].
Qed.
End Projection.

Lemma visible_app (a b : doc) : visible (a ++ b) = visible a ++ visible b.
Proof. apply filter_app. Qed.

Lemma rule1_subseq (d : doc) : subseq (rule1 d) d.
Proof.
  apply (sub_subseq (fun x => x)); [reflexivity|].
  intros m Hm. apply in_lang_parseTime in Hm as (w & _ & _ & ->).
  cbv beta. change (repl fix1) with [LF].
  rewrite app_assoc. apply subseq_suffix.
Qed.

Lemma rule1_visible (d : doc) : subseq (visible (rule1 d)) (visible d).
Proof.
  apply (sub_subseq visible visible_app). intros m _. apply subseq_empty.
Qed.

Lemma rule3_visible (d : doc) : subseq (visible (rule3 d)) (visible d).
Proof.
  apply (sub_subseq visible visible_app).
  intros m Hm. apply in_lang_language in Hm as (w1 & w2 & w3 & _ & _ & _ & ->).
  replace (w1 ++ language_tok ++ w2 ++ resolved_tok ++ LF :: w3 ++ close_tok)
    with ((w1 ++ language_tok ++ w2 ++ resolved_tok ++ LF :: w3) ++ close_tok).
  - rewrite visible_app. apply subseq_suffix.
  - rewrite <- !app_assoc, <- app_comm_cons. reflexivity.
Qed.

(** X3: rule 1 only deletes characters: what it returns, and what the
    second call returns after it, is the text it was given with some
    characters left out. *)
Theorem rule1_only_deletes (d : doc) :
  subseq (rule1 d) d /\ subseq (rule2 (rule1 d)) d.
Proof.
  split; [apply rule1_subseq|].
  rewrite rule2_is_rule1.
  apply (subseq_trans _ (rule1 d)); apply rule1_subseq.
Qed.

(** X4: the three calls never add, change or reorder a character that is
    not whitespace: those of the output are those of the input with some
    left out. *)
Theorem engine_keeps_visible_order (d : doc) :
  subseq (visible (engine d)) (visible d).
Proof.
  unfold engine. rewrite rule2_is_rule1.
  apply (subseq_trans _ (visible (rule1 (rule1 d)))); [apply rule3_visible|].
  apply (subseq_trans _ (visible (rule1 d))); apply rule1_visible.
Qed.

(** ** Counting *)

Section Measure.
(** A count [f] that adds up over concatenation, and a replacement that
    counts no more than any match. *)
Variable f : doc -> nat.
Hypothesis f_app : forall a b, f (a ++ b) = f a + f b.
Variable p : regex.
Variable r : doc.
Hypothesis r_below : forall m, in_lang p m -> f r <= f m.

Lemma sub_measure (s : doc) : f (sub p r s) <= f s.
Proof.
  induction s as [s IH] using doc_length_ind.
  destruct s as [|c s].
  - rewrite sub_nil. destruct (match_here p []) as [n|] eqn:E; [|lia].
    apply match_here_sound in E as (m & r' & E & _ & Hm).
    symmetry in E. apply app_eq_nil in E as [-> ->]. now apply r_below.
  - rewrite sub_cons.
    assert (f (c :: sub p r s) <= f (c :: s)) as Hcopy.
    { change (c :: sub p r s) with ([c] ++ sub p r s).
      change (c :: s) with ([c] ++ s). rewrite !f_app.
      specialize (IH s). simpl in IH. lia. }
    destruct (match_here p (c :: s)) as [[|n]|] eqn:E; [| |exact Hcopy].
    + apply match_here_sound in E as (m & r' & E & Hl & Hm).
      destruct m; [|discriminate].
      pose proof (r_below _ Hm) as Hr.
      assert (f [] = 0) as H0
        by (pose proof (f_app [] []) as H0; simpl in H0; lia).
      rewrite f_app. lia.
    + pose proof (match_here_le _ _ _ E) as Hle. simpl in Hle.
      apply match_here_sound in E as (m & r' & E & Hl & Hm).
      assert (skipn n s = r') as ->.
      { change (skipn n s) with (skipn (S n) (c :: s)).
        now rewrite E, <- Hl, skipn_app, skipn_all, Nat.sub_diag. }
      rewrite E, !f_app. pose proof (r_below _ Hm).
      assert (f (sub p r r') <= f r') as Hr'
        by (apply IH; rewrite E, length_app; lia).
      lia.
Qed.
End Measure.

Lemma line_feeds_app (a b : doc) :
  line_feeds (a ++ b) = line_feeds a + line_feeds b.
Proof. unfold line_feeds. now rewrite filter_app, length_app. Qed.

Lemma rule1_line_feeds (d : doc) : line_feeds (rule1 d) <= line_feeds d.
Proof.
  apply (sub_measure line_feeds line_feeds_app).
  intros m Hm. apply in_lang_parseTime in Hm as (w & _ & _ & ->).
  rewrite !line_feeds_app.
  change (line_feeds (repl fix1)) with 1. change (line_feeds [LF]) with 1. lia.
Qed.

Lemma rule3_line_feeds (d : doc) : line_feeds (rule3 d) <= line_feeds d.
Proof.
  apply (sub_measure line_feeds line_feeds_app).
  intros m Hm. apply in_lang_language in Hm as (w1 & w2 & w3 & _ & _ & _ & ->).
  change (LF :: w3 ++ close_tok) with ([LF] ++ w3 ++ close_tok).
  rewrite !line_feeds_app.
  change (line_feeds (repl fix3)) with 1. change (line_feeds [LF]) with 1. lia.
Qed.

(** X5: the three calls never add a line: the output has no more line
    feeds than the input. *)
Theorem engine_never_adds_lines (d : doc) :
  line_feeds (engine d) <= line_feeds d.
Proof.
  unfold engine. rewrite rule2_is_rule1.
  pose proof (rule3_line_feeds (rule1 (rule1 d))).
  pose proof (rule1_line_feeds (rule1 d)).
  pose proof (rule1_line_feeds d). lia.
Qed.

(** ** When the text changes *)

(** Where the pattern matches, the text gets shorter by at least the
    difference between the shortest match and the replacement. *)
Lemma sub_shrinks (p : regex) (r s : doc) :
  length r < length p -> has_match p s = true ->
  length (sub p r s) + (length p - length r) <= length s.
Proof.
  intros Hr. induction s as [|c s IH]; intros H.
  - simpl in H. destruct (match_here p []) as [n|] eqn:E; [|discriminate].
    apply match_here_min in E as E1. apply match_here_le in E.
    simpl in E. lia.
  - rewrite sub_cons. simpl in H.
    destruct (match_here p (c :: s)) as [[|n]|] eqn:E.
    + apply match_here_min in E. lia.
    + apply match_here_min in E as E1. apply match_here_le in E.
      simpl in E. rewrite length_app.
      assert (length (sub p r (skipn n s)) <= length (skipn n s)) as H1
        by (apply sub_length; lia).
      rewrite length_skipn in H1. simpl. lia.
    + specialize (IH H). simpl. lia.
Qed.

Lemma rule1_shrinks (d : doc) :
  has_match parseTime_re d = true -> length (rule1 d) + 11 <= length d.
Proof. intros H. apply (sub_shrinks parseTime_re (repl fix1)); [simpl; lia|exact H]. Qed.

Lemma rule3_shrinks (d : doc) :
  has_match language_re d = true -> length (rule3 d) + 21 <= length d.
Proof. intros H. apply (sub_shrinks language_re (repl fix3)); [simpl; lia|exact H]. Qed.

Lemma engine_shrinks (d : doc) :
  has_match parseTime_re d = true \/ has_match language_re d = true ->
  length (engine d) + 11 <= length d.
Proof.
  intros H. unfold engine. rewrite rule2_is_rule1.
  destruct (has_match parseTime_re d) eqn:H1.
  - pose proof (rule3_length (rule1 (rule1 d))).
    pose proof (rule1_length (rule1 d)).
    pose proof (rule1_shrinks d H1). lia.
  - destruct H as [H|H3]; [discriminate|].
    rewrite !(rule1_no_match d H1).
    pose proof (rule3_shrinks d H3). lia.
Qed.

(** X1: the three calls return the text as it was given exactly when
    neither pattern matches anywhere in it. *)
Theorem engine_fixed_points (d : doc) :
  engine d = d <->
  has_match parseTime_re d = false /\ has_match language_re d = false.
Proof.
  split.
  - intros E.
    destruct (has_match parseTime_re d) eqn:H1.
    + pose proof (engine_shrinks d (or_introl H1)) as H.
      rewrite E in H. lia.
    + destruct (has_match language_re d) eqn:H3; [|now split].
      pose proof (engine_shrinks d (or_intror H3)) as H.
      rewrite E in H. lia.
  - intros [H1 H3]. unfold engine.
    rewrite rule2_is_rule1, !(rule1_no_match d H1).
    now apply rule3_no_match.
Qed.

(** X2: a run of the three calls that changes the text makes it at
    least 11 characters shorter. *)
Theorem engine_change_shortens (d : doc) :
  engine d <> d -> length (engine d) + 11 <= length d.
Proof.
  intros H. apply engine_shrinks.
  destruct (has_match parseTime_re d) eqn:H1; [now left|].
  destruct (has_match language_re d) eqn:H3; [now right|].
  exfalso. apply H. unfold engine.
  rewrite rule2_is_rule1, !(rule1_no_match d H1).
  now apply rule3_no_match.
Qed.

Lemma engine_change_shortens_witness :
  engine scenario_input <> scenario_input /\
  length (engine scenario_input) + 11 <= length scenario_input.
Proof.
  assert (engine scenario_input <> scenario_input) as H
    by (vm_compute; discriminate).
  split; [exact H|].
  exact (engine_change_shortens scenario_input H).
Defined.

(** ** Texts of one line *)

Lemma has_line_feed_app (a b : doc) :
  has_line_feed (a ++ b) = has_line_feed a || has_line_feed b.
Proof. apply existsb_app. Qed.

Lemma parseTime_match_has_line_feed (d : doc) :
  has_match parseTime_re d = true -> has_line_feed d = true.
Proof.
  intros H. apply has_match_inv in H as (a & b & n & -> & H).
  apply match_here_sound in H as (m & r & -> & _ & H).
  apply in_lang_parseTime in H as (w & _ & _ & ->).
  rewrite !has_line_feed_app.
  change (has_line_feed [LF]) with true.
  now rewrite !orb_true_r.
Qed.

Lemma language_match_has_line_feed (d : doc) :
  has_match language_re d = true -> has_line_feed d = true.
Proof.
  intros H. apply has_match_inv in H as (a & b & n & -> & H).
  apply match_here_sound in H as (m & r & -> & _ & H).
  apply in_lang_language in H as (w1 & w2 & w3 & _ & _ & _ & ->).
  change (LF :: w3 ++ close_tok) with ([LF] ++ w3 ++ close_tok).
  rewrite !has_line_feed_app.
  change (has_line_feed [LF]) with true.
  now rewrite !orb_true_r.
Qed.

(** X6: a text without a line feed comes out of the three calls as it
    went in, whatever else it holds: every match of either pattern spans
    a line break. *)
Theorem engine_keeps_one_line_text (d : doc) :
  has_line_feed d = false -> engine d = d.
Proof.
  intros H.
  assert (has_match parseTime_re d = false) as H1.
  { destruct (has_match parseTime_re d) eqn:E; [|reflexivity].
    apply parseTime_match_has_line_feed in E. congruence. }
  assert (has_match language_re d = false) as H3.
  { destruct (has_match language_re d) eqn:E; [|reflexivity].
    apply language_match_has_line_feed in E. congruence. }
  unfold engine. rewrite rule2_is_rule1, !(rule1_no_match d H1).
  now apply rule3_no_match.
Qed.

Lemma engine_keeps_one_line_text_witness :
  has_line_feed one_line = false /\ engine one_line = one_line.
Proof.
  assert (has_line_feed one_line = false) as H by reflexivity.
  split; [exact H|].
  exact (engine_keeps_one_line_text one_line H).
Defined.

(** ** The three calls on the shape they are written for *)

Lemma occurs_skip_prefix (h : char) (t x y : doc) :
  forallb (fun c => negb (N.eqb h c)) x = true ->
  occurs (h :: t) (x ++ y) = occurs (h :: t) y.
Proof.
  induction x as [|c x IH]; intros H; [reflexivity|].
  simpl in H. apply andb_true_iff in H as [Hc Hx].
  apply negb_true_iff in Hc.
  change ((c :: x) ++ y) with (c :: x ++ y).
  cbn [occurs starts_with]. rewrite Hc. simpl. now apply IH.
Qed.

(** A token with no [c] in it that occurs around a [c] occurs on one
    side of it. *)
Lemma occurs_sep (t x : doc) (c : char) (y : doc) :
  t <> [] -> ~ In c t ->
  occurs t (x ++ c :: y) = true -> occurs t x = true \/ occurs t y = true.
Proof.
  intros Ht Hc. induction x as [|z x IH]; intros H.
  - simpl app in H. cbn [occurs] in H. apply orb_true_iff in H as [H|H];
      [|now right].
    destruct t as [|h t]; [congruence|].
    simpl in H. apply andb_true_iff in H as [H _].
    apply N.eqb_eq in H. subst h. exfalso. apply Hc. now left.
  - change ((z :: x) ++ c :: y) with (z :: x ++ c :: y) in H.
    cbn [occurs] in H. apply orb_true_iff in H as [H|H].
    + apply starts_with_inv in H as [r E].
      change (z :: x ++ c :: y) with ((z :: x) ++ c :: y) in E.
      destruct (app_eq_prefix _ _ _ _ _ E) as [Hs|Hi]; [|contradiction].
      left. cbn [occurs]. now rewrite Hs.
    + destruct (IH H) as [Hx|Hy]; [|now right].
      left. cbn [occurs]. rewrite Hx. apply orb_true_r.
Qed.

Lemma occurs_sep_false (t x : doc) (c : char) (y : doc) :
  t <> [] -> ~ In c t ->
  occurs t x = false -> occurs t y = false ->
  occurs t (x ++ c :: y) = false.
Proof.
  intros Ht Hc Hx Hy. destruct (occurs t (x ++ c :: y)) eqn:E; [|reflexivity].
  destruct (occurs_sep t x c y Ht Hc E); congruence.
Qed.

Lemma ends_with_occurs (t s : doc) :
  occurs t s = false -> ends_with t s = false.
Proof.
  intros H. destruct (ends_with t s) eqn:E; [|reflexivity].
  apply ends_with_inv in E as [s0 ->].
  pose proof (occurs_app s0 t []) as Ho. rewrite app_nil_r in Ho.
  congruence.
Qed.

Lemma rule1_plain (s : doc) : occurs parseTime_tok s = false -> rule1 s = s.
Proof.
  intros H. apply rule1_no_match.
  destruct (has_match parseTime_re s) eqn:E; [|reflexivity].
  apply parseTime_match_holds_token in E. congruence.
Qed.

Lemma language_match_holds_token (s : doc) :
  has_match language_re s = true -> occurs language_tok s = true.
Proof.
  intros H. apply has_match_inv in H as (a & b & n & -> & H).
  apply match_here_sound in H as (m & r & -> & _ & H).
  apply in_lang_language in H as (w1 & w2 & w3 & _ & _ & _ & ->).
  replace (a ++ (w1 ++ language_tok ++ w2 ++ resolved_tok
                    ++ LF :: w3 ++ close_tok) ++ r)
    with ((a ++ w1) ++ language_tok
            ++ (w2 ++ resolved_tok ++ LF :: w3 ++ close_tok ++ r)).
  - apply occurs_app.
  - rewrite <- !app_assoc, <- app_comm_cons. now rewrite <- !app_assoc.
Qed.

Lemma rule3_plain (s : doc) : occurs language_tok s = false -> rule3 s = s.
Proof.
  intros H. apply rule3_no_match.
  destruct (has_match language_re s) eqn:E; [|reflexivity].
  apply language_match_holds_token in E. congruence.
Qed.

(** Rule 1 works on the two sides of a place where whitespace follows a
    character that is not whitespace, unless the token ends there. *)
Lemma rule1_split (pre : doc) (x : char) (rest : doc) :
  ends_in_space pre = false -> ends_with parseTime_tok pre = false ->
  is_space x = true ->
  rule1 (pre ++ x :: rest) = rule1 pre ++ rule1 (x :: rest).
Proof.
  intros He Hend Hx. unfold rule1. apply sub_app; [reflexivity|].
  intros a b -> Hb. apply parseTime_match_local; auto.
  - now rewrite ends_in_space_suffix in He.
  - now apply ends_with_suffix in Hend.
Qed.

Lemma rule1_token_head (w post : doc) :
  space_run w = true ->
  rule1 (w ++ parseTime_tok ++ LF :: post) = LF :: rule1 post.
Proof.
  intros Hw. destruct w as [|x w]; [discriminate|]. simpl in Hw.
  unfold rule1.
  replace ((x :: w) ++ parseTime_tok ++ LF :: post)
    with (((x :: w) ++ parseTime_tok ++ [LF]) ++ post)
    by (now rewrite <- !app_assoc).
  rewrite sub_at_match; [reflexivity|discriminate|].
  rewrite <- !app_assoc.
  apply (match_parseTime (x :: w) post); [discriminate|exact Hw].
Qed.

(** Rule 1 at a [parseTime,] line with no [parseTime,] before it. *)
Lemma rule1_at_run (pre w post : doc) :
  space_run w = true -> ends_in_space pre = false ->
  occurs parseTime_tok pre = false ->
  rule1 (pre ++ w ++ parseTime_tok ++ LF :: post) = pre ++ LF :: rule1 post.
Proof.
  intros Hw He Ho.
  transitivity (rule1 pre ++ rule1 (w ++ parseTime_tok ++ LF :: post)).
  - destruct w as [|x w]; [discriminate|]. simpl in Hw.
    apply andb_true_iff in Hw as [Hx _].
    apply (rule1_split pre x (w ++ parseTime_tok ++ LF :: post));
      auto using ends_with_occurs.
  - now rewrite (rule1_plain pre Ho), (rule1_token_head w post Hw).
Qed.

Lemma space_is_not_p (w : doc) :
  all_space w = true -> forallb (fun c => negb (N.eqb 112 c)) w = true.
Proof.
  intros H. unfold all_space in H. rewrite forallb_forall in *.
  intros c Hc. specialize (H c Hc).
  destruct (N.eqb_spec 112 c) as [<-|]; [discriminate|reflexivity].
Qed.

Lemma space_run_all_space (w : doc) : space_run w = true -> all_space w = true.
Proof. destruct w; [discriminate|trivial]. Qed.

Lemma space_run_head (w : doc) :
  space_run w = true ->
  exists x w', w = x :: w' /\ is_space x = true.
Proof.
  destruct w as [|x w]; [discriminate|]. simpl. intros H.
  apply andb_true_iff in H as [H _]. now exists x, w.
Qed.

(** The part of the shape from the [language:] line on holds no
    [parseTime,] when the text after it holds none. *)
Lemma block_has_no_token (w3 w4 w5 c : doc) :
  all_space w3 = true -> all_space w4 = true -> all_space w5 = true ->
  occurs parseTime_tok c = false ->
  occurs parseTime_tok
    (w3 ++ language_tok ++ w4 ++ resolved_tok ++ LF :: w5 ++ close_tok ++ c)
  = false.
Proof.
  intros H3 H4 H5 Hc.
  change parseTime_tok with (112%N :: of_string "arseTime,") in *.
  change (LF :: w5 ++ close_tok ++ c) with ([LF] ++ w5 ++ close_tok ++ c).
  repeat (rewrite occurs_skip_prefix;
          [|first [now apply space_is_not_p | reflexivity]]).
  exact Hc.
Qed.

Lemma engine_plain (d : doc) :
  occurs parseTime_tok d = false -> occurs language_tok d = false ->
  engine d = d.
Proof.
  intros Ht Hl. unfold engine.
  rewrite rule2_is_rule1, !(rule1_plain d Ht). now apply rule3_plain.
Qed.

Lemma unpack_shape_hypotheses (a w1 b w2 w4 w5 c : doc) :
  forallb space_run [w1; w2; w4; w5] = true ->
  forallb plain [a; b; c] = true ->
  (space_run w1 = true /\ space_run w2 = true /\
   space_run w4 = true /\ space_run w5 = true) /\
  (occurs parseTime_tok a = false /\ occurs language_tok a = false) /\
  (occurs parseTime_tok b = false /\ occurs language_tok b = false) /\
  (occurs parseTime_tok c = false /\ occurs language_tok c = false).
Proof.
  intros Hw Hp. simpl in Hw, Hp. unfold plain in Hp.
  rewrite !andb_true_iff, !negb_true_iff in *. tauto.
Qed.

Lemma engine_target (a w1 b w2 w3 w4 w5 c : doc) :
  space_run w1 = true -> space_run w2 = true -> all_space w3 = true ->
  space_run w4 = true -> space_run w5 = true ->
  occurs parseTime_tok a = false -> occurs language_tok a = false ->
  occurs parseTime_tok b = false -> occurs language_tok b = false ->
  occurs parseTime_tok c = false -> occurs language_tok c = false ->
  ends_in_space a = false -> ends_in_space b = false -> b <> [] ->
  engine (target_shape a w1 b w2 w3 w4 w5 c)
  = a ++ LF :: b ++ (LF :: of_string "        },") ++ c.
Proof.
  intros Hw1 Hw2 Hw3 Hw4 Hw5 Hta Hla Htb Hlb Htc Hlc Hea Heb Hb.
  set (tail := w3 ++ language_tok ++ w4 ++ resolved_tok
                  ++ LF :: w5 ++ close_tok ++ c).
  assert (occurs parseTime_tok tail = false) as Htail
    by (apply block_has_no_token; auto using space_run_all_space).
  (* the first call *)
  assert (rule1 (target_shape a w1 b w2 w3 w4 w5 c)
          = a ++ LF :: b ++ LF :: tail) as E1.
  { unfold target_shape. fold tail.
    rewrite (rule1_at_run a w1) by assumption.
    rewrite (rule1_at_run b w2) by assumption.
    now rewrite (rule1_plain tail Htail). }
  (* the second call finds nothing *)
  assert (occurs parseTime_tok (a ++ LF :: b ++ LF :: tail) = false) as Hout.
  { apply occurs_sep_false; [discriminate | vm_compute; intuition discriminate
                            | exact Hta |].
    apply occurs_sep_false; [discriminate | vm_compute; intuition discriminate
                            | exact Htb | exact Htail]. }
  unfold engine. rewrite E1, rule2_is_rule1, (rule1_plain _ Hout).
  (* the third call *)
  replace (a ++ LF :: b ++ LF :: tail)
    with ((a ++ LF :: b) ++ (LF :: w3) ++ language_tok ++ w4 ++ resolved_tok
            ++ LF :: w5 ++ close_tok ++ c)
    by (unfold tail; rewrite <- !app_assoc; reflexivity).
  rewrite rule3_at_block; auto using space_run_all_space; try discriminate.
  - rewrite (rule3_plain c Hlc), rule3_plain.
    + rewrite <- !app_assoc. reflexivity.
    + apply occurs_sep_false; auto; [discriminate | vm_compute; intuition discriminate].
  - destruct w4; [discriminate|discriminate].
  - destruct w5; [discriminate|discriminate].
  - change (a ++ LF :: b) with (a ++ [LF] ++ b).
    rewrite app_assoc, ends_in_space_suffix; assumption.
Qed.

(** X7: on a text of the shape the calls are written for, the three
    calls remove the two [parseTime,] lines and the [language:] line, put
    the closing brace and comma behind eight spaces, and change nothing
    else. *)
Theorem engine_on_target_shape (a w1 b w2 w3 w4 w5 c : doc) :
  forallb space_run [w1; w2; w4; w5] = true ->
  all_space w3 = true ->
  forallb plain [a; b; c] = true ->
  ends_in_space a = false ->
  ends_in_space b = false ->
  b <> [] ->
  engine (target_shape a w1 b w2 w3 w4 w5 c)
  = a ++ LF :: b ++ (LF :: of_string "        },") ++ c.
Proof.
  intros Hw Hw3 Hp Hea Heb Hb.
  destruct (unpack_shape_hypotheses a w1 b w2 w4 w5 c Hw Hp)
    as ((Hw1 & Hw2 & Hw4 & Hw5) & (Hta & Hla) & (Htb & Hlb) & (Htc & Hlc)).
  now apply engine_target.
Qed.

Lemma engine_on_target_shape_witness :
  forallb space_run
    [LF :: of_string "    "; LF :: of_string "      "; of_string " ";
     of_string "    "] = true /\
  all_space (of_string "      ") = true /\
  forallb plain [sample_head; sample_middle; sample_rest] = true /\
  ends_in_space sample_head = false /\
  ends_in_space sample_middle = false /\
  sample_middle <> [] /\
  engine sample_target
  = sample_head ++ LF :: sample_middle
      ++ (LF :: of_string "        },") ++ sample_rest.
Proof.
  assert (forallb space_run
            [LF :: of_string "    "; LF :: of_string "      "; of_string " ";
             of_string "    "] = true) as H1 by reflexivity.
  assert (all_space (of_string "      ") = true) as H2 by reflexivity.
  assert (forallb plain [sample_head; sample_middle; sample_rest] = true)
    as H3 by (vm_compute; reflexivity).
  assert (ends_in_space sample_head = false) as H4 by reflexivity.
  assert (ends_in_space sample_middle = false) as H5 by reflexivity.
  assert (sample_middle <> []) as H6 by discriminate.
  split; [exact H1 | split; [exact H2 | split; [exact H3 | split;
    [exact H4 | split; [exact H5 | split; [exact H6 |]]]]]].
  exact (engine_on_target_shape sample_head _ sample_middle _ _ _ _
           sample_rest H1 H2 H3 H4 H5 H6).
Defined.

(** X9: on a text of that shape a second run of the three calls over the
    output of the first changes nothing. *)
Theorem engine_twice_on_target_shape (a w1 b w2 w3 w4 w5 c : doc) :
  forallb space_run [w1; w2; w4; w5] = true ->
  all_space w3 = true ->
  forallb plain [a; b; c] = true ->
  ends_in_space a = false ->
  ends_in_space b = false ->
  b <> [] ->
  engine (engine (target_shape a w1 b w2 w3 w4 w5 c))
  = engine (target_shape a w1 b w2 w3 w4 w5 c).
Proof.
  intros Hw Hw3 Hp Hea Heb Hb.
  destruct (unpack_shape_hypotheses a w1 b w2 w4 w5 c Hw Hp)
    as ((Hw1 & Hw2 & Hw4 & Hw5) & (Hta & Hla) & (Htb & Hlb) & (Htc & Hlc)).
  rewrite (engine_target a w1 b w2 w3 w4 w5 c) by assumption.
  apply engine_plain.
  - apply occurs_sep_false;
      [discriminate | vm_compute; intuition discriminate | exact Hta |].
    apply occurs_sep_false;
      [discriminate | vm_compute; intuition discriminate | exact Htb |].
    change parseTime_tok with (112%N :: of_string "arseTime,") in *.
    rewrite occurs_skip_prefix; [exact Htc | reflexivity].
  - apply occurs_sep_false;
      [discriminate | vm_compute; intuition discriminate | exact Hla |].
    apply occurs_sep_false;
      [discriminate | vm_compute; intuition discriminate | exact Hlb |].
    change language_tok with (108%N :: of_string "anguage:") in *.
    rewrite occurs_skip_prefix; [exact Hlc | reflexivity].
Qed.

Lemma engine_twice_on_target_shape_witness :
  forallb space_run
    [LF :: of_string "    "; LF :: of_string "      "; of_string " ";
     of_string "    "] = true /\
  all_space (of_string "      ") = true /\
  forallb plain [sample_head; sample_middle; sample_rest] = true /\
  ends_in_space sample_head = false /\
  ends_in_space sample_middle = false /\
  sample_middle <> [] /\
  engine (engine sample_target) = engine sample_target.
Proof.
  assert (forallb space_run
            [LF :: of_string "    "; LF :: of_string "      "; of_string " ";
             of_string "    "] = true) as H1 by reflexivity.
  assert (all_space (of_string "      ") = true) as H2 by reflexivity.
  assert (forallb plain [sample_head; sample_middle; sample_rest] = true)
    as H3 by (vm_compute; reflexivity).
  assert (ends_in_space sample_head = false) as H4 by reflexivity.
  assert (ends_in_space sample_middle = false) as H5 by reflexivity.
  assert (sample_middle <> []) as H6 by discriminate.
  split; [exact H1 | split; [exact H2 | split; [exact H3 | split;
    [exact H4 | split; [exact H5 | split; [exact H6 |]]]]]].
  exact (engine_twice_on_target_shape sample_head _ sample_middle _ _ _ _
           sample_rest H1 H2 H3 H4 H5 H6).
Defined.

(** ** Runs in which the file cannot be opened *)

Lemma printed_emit_open_failed (w : world) :
  printed (emit EvOpenFailed w) = printed w.
Proof.
  unfold printed, emit. simpl. rewrite filter_app. simpl. apply app_nil_r.
Qed.

(** X8: when the file cannot be opened, for reading at the start or for
    writing at the end, the script stops on the I/O failure, the text of
    the file is as it was, and the message is not printed. *)
Theorem failed_open_keeps_file (w : world) :
  open_fails w = true ->
  fst (main w) = Raise IOFailure /\
  file (snd (main w)) = file w /\
  printed (snd (main w)) = printed w.
Proof.
  destruct w as [[d|] wr evs enc]; unfold open_fails; cbn [file writable];
    intros H.
  - apply negb_true_iff in H. subst wr.
    assert (main (MkWorld (Some d) false evs enc)
            = (Raise IOFailure,
               emit EvOpenFailed
                 (emit EvRead (MkWorld (Some d) false evs enc))))
      as -> by reflexivity.
    repeat split. simpl snd. rewrite printed_emit_open_failed.
    unfold printed, emit. simpl. rewrite filter_app. simpl. apply app_nil_r.
  - assert (main (MkWorld None wr evs enc)
            = (Raise IOFailure, emit EvOpenFailed (MkWorld None wr evs enc)))
      as -> by reflexivity.
    repeat split. simpl snd. apply printed_emit_open_failed.
Qed.

Lemma failed_open_keeps_file_witness :
  open_fails (World (Some scenario_input) false []) = true /\
  fst (main (World (Some scenario_input) false [])) = Raise IOFailure /\
  file (snd (main (World (Some scenario_input) false [])))
  = Some scenario_input /\
  printed (snd (main (World (Some scenario_input) false []))) = [].
Proof.
  assert (open_fails (World (Some scenario_input) false []) = true) as H
    by reflexivity.
  split; [exact H|].
  exact (failed_open_keeps_file (World (Some scenario_input) false []) H).
Defined.

(** ** Runs in which the message cannot be printed *)

(** X10: when the file can be read and written but the standard output
    cannot encode the message, the script stops on the encoding failure
    after it has rewritten the file: the file holds the output of the
    three calls and no message is printed. *)
Theorem failed_print_after_write (w : world) (d : doc) :
  file w = Some d -> writable w = true ->
  forallb (stdout_encodes w) message = false ->
  fst (main w) = Raise EncodeFailure /\
  file (snd (main w)) = Some (engine d) /\
  events (snd (main w)) = events w ++ [EvRead; EvWrite (engine d)].
Proof.
  destruct w as [f wr evs enc]. cbn [file writable stdout_encodes].
  intros -> -> Henc.
  assert (main (MkWorld (Some d) true evs enc)
          = print message
              (MkWorld (Some (engine d)) true
                 ((evs ++ [EvRead]) ++ [EvWrite (engine d)]) enc))
    as -> by reflexivity.
  unfold print. cbn [stdout_encodes]. rewrite Henc.
  repeat split. simpl. now rewrite <- app_assoc.
Qed.

Lemma failed_print_after_write_witness :
  file narrow_world = Some scenario_input /\
  writable narrow_world = true /\
  forallb (stdout_encodes narrow_world) message = false /\
  fst (main narrow_world) = Raise EncodeFailure /\
  file (snd (main narrow_world)) = Some (engine scenario_input) /\
  events (snd (main narrow_world))
  = events narrow_world ++ [EvRead; EvWrite (engine scenario_input)].
Proof.
  assert (file narrow_world = Some scenario_input) as H1 by reflexivity.
  assert (writable narrow_world = true) as H2 by reflexivity.
  assert (forallb (stdout_encodes narrow_world) message = false) as H3
    by reflexivity.
  split; [exact H1 | split; [exact H2 | split; [exact H3 |]]].
  exact (failed_print_after_write narrow_world scenario_input H1 H2 H3).
Defined.
